(** * go-caskdb: the disk store (disk_store.go) and its record codec

    A shallow embedding of the Bitcask-style store of [disk_store.go]:
    an append-only log file and the in-memory [keyDir] that maps every
    key to the place of its latest record.

    - Go [string] is [string], Go [[]byte] is [list byte];
    - [uint32] values are [Z] with the wrap-around written out ([uint32]);
    - the map [keyDir] is a [gmap string KeyEntry];
    - the file system, the clock and the result of [fsync] are explicit:
      every operation takes the file system and returns the new one. *)

From Stdlib Require Import ZArith List Lia.
From Stdlib Require Import Strings.String Strings.Ascii Strings.Byte.
From stdpp Require Import gmap strings list fin_maps.

Local Open Scope Z_scope.

(** ** Machine integers and bytes *)

(** The conversion [uint32(x)] and the result of [uint32] arithmetic. *)
Definition uint32 (x : Z) : Z := x mod 2 ^ 32.

Definition byte_of_Z (z : Z) : byte :=
  match Byte.of_N (Z.to_N (z mod 256)) with
  | Some b => b
  | None => Byte.x00
  end.

Definition Z_of_byte (b : byte) : Z := Z.of_N (Byte.to_N b).

(** A buffer [make([]byte, len)] after a read stored [bs] at its start:
    the bytes that were not overwritten are still zero. *)
Definition fill (len : nat) (bs : list byte) : list byte :=
  bs ++ replicate (len - length bs)%nat Byte.x00.

(** ** Record codec *)

(** Modelled from the spec: the byte order of the header fields. The codec
    ([encodeKV], [decodeKV], [decodeHeader], [headerSize]) is not part of
    [disk_store.go]; the spec fixes "a defined fixed byte order" without
    naming it, so the development is carried out for both. *)
Inductive ByteOrder : Set := LittleEndian | BigEndian.

(** Modelled from the spec: the header is three [uint32] fields with no
    padding, so its fixed width is twelve bytes. *)
Definition headerSize : Z := 12.

(** Modelled from the spec: a [uint32] field written in the fixed byte
    order. *)
Definition PutUint32 (order : ByteOrder) (v : Z) : list byte :=
  let b0 := byte_of_Z v in
  let b1 := byte_of_Z (v / 2 ^ 8) in
  let b2 := byte_of_Z (v / 2 ^ 16) in
  let b3 := byte_of_Z (v / 2 ^ 24) in
  match order with
  | LittleEndian => [b0; b1; b2; b3]
  | BigEndian => [b3; b2; b1; b0]
  end.

(** Modelled from the spec: a [uint32] field read in the fixed byte order. *)
Definition Uint32 (order : ByteOrder) (b0 b1 b2 b3 : byte) : Z :=
  match order with
  | LittleEndian =>
      Z_of_byte b0 + 2 ^ 8 * Z_of_byte b1 + 2 ^ 16 * Z_of_byte b2 + 2 ^ 24 * Z_of_byte b3
  | BigEndian =>
      Z_of_byte b3 + 2 ^ 8 * Z_of_byte b2 + 2 ^ 16 * Z_of_byte b1 + 2 ^ 24 * Z_of_byte b0
  end.

(** Modelled from the spec: the header [timestamp ‖ key_size ‖ value_size]. *)
Definition encodeHeader (order : ByteOrder) (timestamp keySize valueSize : Z) : list byte :=
  PutUint32 order timestamp ++ PutUint32 order keySize ++ PutUint32 order valueSize.

(** Modelled from the spec: [DecodeHeader] takes exactly [headerSize] bytes
    and returns the three fields; on any other input it fails ([None]). *)
Definition decodeHeader (order : ByteOrder) (header : list byte) : option (Z * Z * Z) :=
  match header with
  | [t0; t1; t2; t3; k0; k1; k2; k3; v0; v1; v2; v3] =>
      Some (Uint32 order t0 t1 t2 t3, Uint32 order k0 k1 k2 k3, Uint32 order v0 v1 v2 v3)
  | _ => None
  end.

(** Modelled from the spec: [Encode(timestamp, key, value)] returns the total
    size, [header size + len(key) + len(value)], and the header followed by
    the raw key and value bytes. The size fields are [uint32]. *)
Definition encodeKV (order : ByteOrder) (timestamp : Z) (key value : string)
  : Z * list byte :=
  let header :=
    encodeHeader order timestamp
      (uint32 (Z.of_nat (String.length key)))
      (uint32 (Z.of_nat (String.length value))) in
  let data := list_byte_of_string key ++ list_byte_of_string value in
  (headerSize + Z.of_nat (length data), header ++ data).

(** Modelled from the spec: [DecodeKV] takes a full record (header, key and
    value) and splits the payload with the sizes of the header. The spec
    defines it on full records only: on input shorter than
    [headerSize + key_size + value_size] the result is [None]. *)
Definition decodeKV (order : ByteOrder) (data : list byte) : option (Z * string * string) :=
  match decodeHeader order (take (Z.to_nat headerSize) data) with
  | None => None
  | Some (timestamp, keySize, valueSize) =>
      if Z.of_nat (length data) <? headerSize + keySize + valueSize then None
      else
        let key := take (Z.to_nat keySize) (drop (Z.to_nat headerSize) data) in
        let value :=
          take (Z.to_nat valueSize) (drop (Z.to_nat (headerSize + keySize)) data) in
        Some (timestamp, string_of_list_byte key, string_of_list_byte value)
  end.

(** Modelled from the spec: the index value of a key (the type [KeyEntry]
    and its constructor [NewKeyEntry] are declared beside the codec):
    the timestamp of the record, the offset of its first byte and its
    total size, all [uint32]. *)
Record KeyEntry : Set := NewKeyEntry { Timestamp : Z; Offset : Z; Size : Z }.

(** ** Errors, outcomes, and the file system *)

(** The [error] values the store can meet. *)
Inductive error : Set :=
  | EOF                            (* io.EOF *)
  | errorString (s : string)       (* errors.New(s) *)
  | ErrNotExist                    (* open of a missing file *)
  | ErrInvalid                     (* a method called on a nil *os.File *)
  | ErrClosed                      (* a method called on a closed file *)
  | EBADF                          (* read on a write-only file, or the converse *)
  | Errno (s : string).            (* any other failure of a system call *)

(** [err.Error()]. *)
Definition Error (e : error) : string :=
  match e with
  | EOF => "EOF"
  | errorString s => s
  | ErrNotExist => "no such file or directory"
  | ErrInvalid => "invalid argument"
  | ErrClosed => "file already closed"
  | EBADF => "bad file descriptor"
  | Errno s => s
  end.

(** [err == io.EOF] *)
Definition is_EOF (err : option error) : bool :=
  match err with
  | Some EOF => true
  | _ => false
  end.

(** A Go call either returns or panics. *)
Inductive outcome (A : Type) : Type :=
  | Return (a : A)
  | Panic (msg : string).
Arguments Return {A} a.
Arguments Panic {A} msg.

(** A file: the bytes a reader sees ([f_data]) and the bytes that have
    reached stable storage ([f_stable]); [Sync] brings the second up to
    date with the first. *)
Record file : Set := mkfile { f_data : list byte; f_stable : list byte }.

(** The flags a file was opened with. *)
Inductive OpenFlag : Set :=
  | O_RDONLY            (* os.Open *)
  | O_RDWR              (* os.Create *)
  | O_APPEND_WRONLY.    (* os.OpenFile(_, os.O_APPEND|os.O_WRONLY, _) *)

(** The value behind a non-nil [*os.File]; the pointer itself is an
    [option File], [None] being [nil]. *)
Record File : Set := mkFile
  { h_name : string; h_flag : OpenFlag; h_pos : nat; h_closed : bool }.

(** [os.Stat(fileName)] succeeds. *)
Definition isFileExists (fs : gmap string file) (fileName : string) : bool :=
  bool_decide (is_Some (fs !! fileName)).

Definition os_Open (fs : gmap string file) (fileName : string)
  : option File * option error :=
  match fs !! fileName with
  | Some _ => (Some (mkFile fileName O_RDONLY 0 false), None)
  | None => (None, Some ErrNotExist)
  end.

(** [os.Create] makes the file, or truncates it. *)
Definition os_Create (fs : gmap string file) (fileName : string)
  : gmap string file * option File * option error :=
  (<[fileName := mkfile [] (default [] (f_stable <$> fs !! fileName))]> fs,
   Some (mkFile fileName O_RDWR 0 false), None).

(** [os.OpenFile(fileName, os.O_APPEND|os.O_WRONLY, 0644)]: no [O_CREATE]. *)
Definition os_OpenFile_append (fs : gmap string file) (fileName : string)
  : option File * option error :=
  match fs !! fileName with
  | Some _ => (Some (mkFile fileName O_APPEND_WRONLY 0 false), None)
  | None => (None, Some ErrNotExist)
  end.

(** [f.Read(b)] with [len(b) = len]: the file after the call, the bytes
    stored at the start of [b] (their number is the [n] of Go) and the
    error. A read of a regular file is short only at the end of the file;
    there it returns what is left, and [0, io.EOF] when nothing is. A
    zero-length buffer gives [0, nil]. *)
Definition File_Read (fs : gmap string file) (f : option File) (len : nat)
  : option File * list byte * option error :=
  match f with
  | None => (f, [], Some ErrInvalid)
  | Some h =>
      if h_closed h then (f, [], Some ErrClosed)
      else if (len =? 0)%nat then (f, [], None)
      else
        match h_flag h, fs !! h_name h with
        | O_APPEND_WRONLY, _ => (f, [], Some EBADF)
        | _, None => (f, [], Some (Errno "stale file handle"))
        | _, Some fl =>
            let bs := take len (drop (h_pos h) (f_data fl)) in
            match bs with
            | [] => (f, [], Some EOF)
            | _ =>
                (Some (mkFile (h_name h) (h_flag h) (h_pos h + length bs) false),
                 bs, None)
            end
        end
  end.

(** [f.Seek(offset, 0)]; its results are never looked at. *)
Definition File_Seek (f : option File) (offset : Z) : option File :=
  match f with
  | None => None
  | Some h =>
      if h_closed h then f
      else Some (mkFile (h_name h) (h_flag h) (Z.to_nat offset) false)
  end.

(** [f.Write(b)]. In append mode the bytes land at the end of the file;
    otherwise at the position of the handle, the gap being zero bytes. *)
Definition File_Write (fs : gmap string file) (f : option File) (b : list byte)
  : gmap string file * option File * option error :=
  match f with
  | None => (fs, f, Some ErrInvalid)
  | Some h =>
      if h_closed h then (fs, f, Some ErrClosed)
      else
        match h_flag h, fs !! h_name h with
        | O_RDONLY, _ => (fs, f, Some EBADF)
        | _, None => (fs, f, Some (Errno "stale file handle"))
        | O_APPEND_WRONLY, Some fl =>
            (<[h_name h := mkfile (f_data fl ++ b) (f_stable fl)]> fs,
             Some (mkFile (h_name h) (h_flag h) (length (f_data fl) + length b) false),
             None)
        | O_RDWR, Some fl =>
            let before := fill (h_pos h) (take (h_pos h) (f_data fl)) in
            let after := drop (h_pos h + length b) (f_data fl) in
            (<[h_name h := mkfile (before ++ b ++ after) (f_stable fl)]> fs,
             Some (mkFile (h_name h) (h_flag h) (h_pos h + length b) false),
             None)
        end
  end.

(** [f.Sync()]. Whether the device accepts the flush is decided outside the
    program: [fsync] is the error of the system call, [None] when it
    succeeds; then everything written has reached stable storage. *)
Definition File_Sync (fsync : option error) (fs : gmap string file) (f : option File)
  : gmap string file * option error :=
  match f with
  | None => (fs, Some ErrInvalid)
  | Some h =>
      if h_closed h then (fs, Some ErrClosed)
      else
        match fsync, fs !! h_name h with
        | Some e, _ => (fs, Some e)
        | None, None => (fs, Some (Errno "stale file handle"))
        | None, Some fl => (<[h_name h := mkfile (f_data fl) (f_data fl)]> fs, None)
        end
  end.

(** [f.Close()]. *)
Definition File_Close (f : option File) : option File * option error :=
  match f with
  | None => (None, Some ErrInvalid)
  | Some h =>
      if h_closed h then (f, Some ErrClosed)
      else (Some (mkFile (h_name h) (h_flag h) (h_pos h) true), None)
  end.

(** ** The store *)

Record DiskStore : Type := mkDiskStore
  { keyDir : gmap string KeyEntry;
    readFileHandle : option File;
    writeFileHandle : option File;
    currentOffset : Z }.

Section Store.

Variable order : ByteOrder.

(** The loop of [getKeyDir]. [f] is the file being scanned, [offset] and
    [keyDir] the variables of the same name, [err] the [err] of the
    enclosing function, which the [return] after the loop hands back. The
    loop runs until the file is exhausted; [fuel] bounds the number of
    iterations and [None] says that it did not suffice. *)
Fixpoint getKeyDir_loop (fuel : nat) (fs : gmap string file) (f : option File)
    (offset : Z) (keyDir : gmap string KeyEntry) (err : option error)
  : option (outcome (option (gmap string KeyEntry) * option error)) :=
  match fuel with
  | O => None
  | S fuel =>
      let '(f, hd, err1) := File_Read fs f (Z.to_nat headerSize) in
      let headerBuffer := fill (Z.to_nat headerSize) hd in
      if is_EOF err1 || (length hd =? 0)%nat then Some (Return (Some keyDir, err))
      else
        match err1 with
        | Some e => Some (Return (None, Some e))
        | None =>
            match decodeHeader order headerBuffer with
            | None => Some (Panic "index out of range")
            | Some (timestamp, keySize, valueSize) =>
                let len := Z.to_nat (uint32 (keySize + valueSize)) in
                let '(f, kv, err2) := File_Read fs f len in
                let kvBuffer := fill len kv in
                match err2 with
                | Some e => Some (Return (None, Some e))
                | None =>
                    if (length kv =? 0)%nat
                    then Some (Return (None, Some (errorString "EOF reading key")))
                    else
                      let data := headerBuffer ++ kvBuffer in
                      match decodeKV order data with
                      | None => Some (Panic "slice bounds out of range")
                      | Some (_, key, _) =>
                          let totalSize := uint32 (headerSize + keySize + valueSize) in
                          getKeyDir_loop fuel fs f (offset + totalSize)
                            (<[key := NewKeyEntry timestamp (uint32 offset) totalSize]> keyDir)
                            err
                      end
                end
            end
        end
  end.

(** Every iteration that goes on has read at least one byte of the file,
    so one more iteration than the file has bytes is enough. *)
Definition scan_fuel (fs : gmap string file) (fileName : string) : nat :=
  S (length (default [] (f_data <$> fs !! fileName))).

(** [getKeyDir]. The deferred [f.Close()] was registered while [f] was
    still [nil]: it closes nothing and its result is dropped. *)
Definition getKeyDir (fs : gmap string file) (fileName : string)
  : option (gmap string file * outcome (option (gmap string KeyEntry) * option error)) :=
  let '(fs, f, err) :=
    if isFileExists fs fileName
    then let '(f, err) := os_Open fs fileName in (fs, f, err)
    else os_Create fs fileName in
  match err with
  | Some e => Some (fs, Return (None, Some e))
  | None =>
      match getKeyDir_loop (scan_fuel fs fileName) fs f 0 ∅ err with
      | None => None
      | Some r => Some (fs, r)
      end
  end.

Definition NewDiskStore (fs : gmap string file) (fileName : string)
  : option (gmap string file * outcome (option DiskStore * option error)) :=
  match getKeyDir fs fileName with
  | None => None
  | Some (fs, Panic msg) => Some (fs, Panic msg)
  | Some (fs, Return (_, Some e)) => Some (fs, Return (None, Some e))
  | Some (fs, Return (keyDir, None)) =>
      match os_OpenFile_append fs fileName with
      | (_, Some e) => Some (fs, Return (None, Some e))
      | (writeFileHandle, None) =>
          let '(readFileHandle, err) := os_Open fs fileName in
          (* [getKeyDir] hands back a nil map only together with an error,
             so [keyDir] is a map here. *)
          Some (fs, Return (Some (mkDiskStore (default ∅ keyDir) readFileHandle
                                    writeFileHandle 0), err))
      end
  end.

(** [Get]. The results of [Seek] and [Read] are dropped: [kvBuffer] is
    decoded whatever was read into it. *)
Definition Get (fs : gmap string file) (d : DiskStore) (key : string)
  : DiskStore * outcome string :=
  match keyDir d !! key with
  | Some keyEntry =>
      let r := File_Seek (readFileHandle d) (Offset keyEntry) in
      let '(r, bs, _) := File_Read fs r (Z.to_nat (Size keyEntry)) in
      let kvBuffer := fill (Z.to_nat (Size keyEntry)) bs in
      let d := mkDiskStore (keyDir d) r (writeFileHandle d) (currentOffset d) in
      match decodeKV order kvBuffer with
      | Some (_, _, value) => (d, Return value)
      | None => (d, Panic "slice bounds out of range")
      end
  | None => (d, Return ""%string)
  end.

(** [Set]. [now] is [time.Now().Unix()] and [fsync] what the device answers
    to the flush. The result of [Write] is dropped. *)
Definition Set_ (now : Z) (fsync : option error) (fs : gmap string file)
    (d : DiskStore) (key value : string)
  : gmap string file * DiskStore * outcome unit :=
  let timestamp := uint32 now in
  let '(totalSize, encodedKV) := encodeKV order timestamp key value in
  let keyDir' :=
    <[key := NewKeyEntry timestamp (currentOffset d) (uint32 totalSize)]> (keyDir d) in
  let '(fs, w, _) := File_Write fs (writeFileHandle d) encodedKV in
  let currentOffset' := uint32 (currentOffset d + uint32 totalSize) in
  let '(fs, err) := File_Sync fsync fs w in
  let d := mkDiskStore keyDir' (readFileHandle d) w currentOffset' in
  match err with
  | Some e => (fs, d, Panic ("Failed to sync to disk " +:+ Error e))
  | None => (fs, d, Return tt)
  end.

(** [Close]. *)
Definition Close (d : DiskStore) : DiskStore * bool :=
  let '(r, _) := File_Close (readFileHandle d) in
  let '(w, _) := File_Close (writeFileHandle d) in
  (mkDiskStore (keyDir d) r w (currentOffset d), true).

End Store.

(** ** Logs, sessions and what they should leave behind *)

(** A record of the log: timestamp, key and value. *)
Definition record : Type := Z * string * string.

Definition recordKey (r : record) : string := snd (fst r).

(** Header size plus the sizes of key and value. *)
Definition recordSize (r : record) : Z :=
  let '(_, k, v) := r in
  headerSize + Z.of_nat (String.length k) + Z.of_nat (String.length v).

(** The key and the value are not both empty. *)
Definition payload_nonempty (r : record) : Prop :=
  let '(_, k, v) := r in
  (0 < String.length k + String.length v)%nat.

(** The timestamp is a [uint32]. *)
Definition timestamp_ok (r : record) : Prop := 0 <= fst (fst r) < 2 ^ 32.

Definition encodeRecord (order : ByteOrder) (r : record) : list byte :=
  let '(t, k, v) := r in snd (encodeKV order t k v).

(** The sum of the record sizes, s1 + ... + sN. *)
Fixpoint logSize (log : list record) : Z :=
  match log with
  | [] => 0
  | r :: log => recordSize r + logSize log
  end.

(** The records one after the other, as they lie in the file. *)
Fixpoint logBytes (order : ByteOrder) (log : list record) : list byte :=
  match log with
  | [] => []
  | r :: log => encodeRecord order r ++ logBytes order log
  end.

(** The index a log stands for: every record, in the order of the log, is
    entered under its key with the offset at which it starts, the sum of
    the sizes of the records before it, and with its size. *)
Fixpoint replay (offset : Z) (keyDir : gmap string KeyEntry) (log : list record)
  : gmap string KeyEntry :=
  match log with
  | [] => keyDir
  | r :: log =>
      replay (offset + recordSize r)
        (<[recordKey r := NewKeyEntry (fst (fst r)) offset (recordSize r)]> keyDir) log
  end.

(** A call [Set(key, value)] made when the clock shows [now], as
    [(now, key, value)], and the record it writes. *)
Definition recordOf (call : Z * string * string) : record :=
  let '(now, k, v) := call in (uint32 now, k, v).

(** A run of [Set] calls whose flushes all succeed; [None] if one of them
    panics all the same. *)
Fixpoint Sets (order : ByteOrder) (calls : list (Z * string * string))
    (fs : gmap string file) (d : DiskStore)
  : option (gmap string file * DiskStore) :=
  match calls with
  | [] => Some (fs, d)
  | (now, k, v) :: calls =>
      match Set_ order now None fs d k v with
      | (fs, d, Return _) => Sets order calls fs d
      | (_, _, Panic _) => None
      end
  end.

(** The file is missing or empty. *)
Definition empty_file (fs : gmap string file) (fileName : string) : Prop :=
  match fs !! fileName with
  | None => True
  | Some fl => f_data fl = []
  end.

(** The bytes of the file, nothing for a missing file. *)
Definition file_bytes (fs : gmap string file) (fileName : string) : list byte :=
  default [] (f_data <$> fs !! fileName).

(** The bytes that a read of [len] bytes at [offset] can get. *)
Definition available (fs : gmap string file) (fileName : string) (offset len : Z)
  : list byte :=
  take (Z.to_nat len) (drop (Z.to_nat offset) (file_bytes fs fileName)).

(** The bytes of the file from the position of a handle on; nothing for a
    handle that cannot be read. *)
Definition remaining (fs : gmap string file) (f : option File) : nat :=
  match f with
  | None => 0
  | Some h => (length (file_bytes fs (h_name h)) - h_pos h)%nat
  end.

(** The state of a store that has the log [log] in the file [fileName]:
    the file holds the records, both handles are open on it, the index is
    the one the log stands for and the counter is the size of the log. *)
Record session (order : ByteOrder) (fileName : string) (log : list record)
    (fs : gmap string file) (d : DiskStore) : Prop := mksession
  { ses_file : file_bytes fs fileName = logBytes order log;
    ses_exists : is_Some (fs !! fileName);
    ses_read : exists p, readFileHandle d = Some (mkFile fileName O_RDONLY p false);
    ses_write : exists p,
        writeFileHandle d = Some (mkFile fileName O_APPEND_WRONLY p false);
    ses_keyDir : keyDir d = replay 0 ∅ log;
    ses_offset : currentOffset d = logSize log;
    ses_bound : logSize log < 2 ^ 32;
    ses_stamps : Forall timestamp_ok log }.

(** ** Runs of calls, and the map a store stands for *)

(** A call of the store: [Set(key, value)] made when the clock shows
    [now], or [Get(key)]. *)
Inductive op : Set :=
  | OpSet (now : Z) (key value : string)
  | OpGet (key : string).

(** The calls one after the other, every flush succeeding: the file
    system and the store at the end and what the [Get] calls returned, in
    order; [None] if a call panics. *)
Fixpoint run (order : ByteOrder) (ops : list op) (fs : gmap string file) (d : DiskStore)
  : option (gmap string file * DiskStore * list string) :=
  match ops with
  | [] => Some (fs, d, [])
  | OpSet now k v :: ops =>
      match Set_ order now None fs d k v with
      | (fs, d, Return _) => run order ops fs d
      | (_, _, Panic _) => None
      end
  | OpGet k :: ops =>
      match Get order fs d k with
      | (d, Return v) =>
          match run order ops fs d with
          | Some (fs, d, out) => Some (fs, d, v :: out)
          | None => None
          end
      | (_, Panic _) => None
      end
  end.

(** The same calls on a finite map from keys to values, a missing key
    reading as the empty string: the map at the end and what the [Get]
    calls return. *)
Fixpoint run_map (ops : list op) (m : gmap string string)
  : gmap string string * list string :=
  match ops with
  | [] => (m, [])
  | OpSet _ k v :: ops => run_map ops (<[k := v]> m)
  | OpGet k :: ops =>
      let '(m', out) := run_map ops m in (m', default ""%string (m !! k) :: out)
  end.

(** The records that the [Set] calls of a run write. *)
Fixpoint opRecords (ops : list op) : list record :=
  match ops with
  | [] => []
  | OpSet now k v :: ops => recordOf (now, k, v) :: opRecords ops
  | OpGet _ :: ops => opRecords ops
  end.

(** The map a log stands for: every key with the value of its last
    record. *)
Fixpoint values (m : gmap string string) (log : list record) : gmap string string :=
  match log with
  | [] => m
  | r :: log => values (<[recordKey r := snd r]> m) log
  end.

(** ** Scenarios *)

(** A store is opened on the missing file [fileName], the calls are made,
    the store is closed, and a store is opened on the file again: what
    the second [NewDiskStore] returns. *)
Definition reopen_after (order : ByteOrder) (fileName : string)
    (calls : list (Z * string * string))
  : option (outcome (option DiskStore * option error)) :=
  match NewDiskStore order ∅ fileName with
  | Some (fs, Return (Some d, None)) =>
      match Sets order calls fs d with
      | Some (fs, d) =>
          let '(_, _) := Close d in
          snd <$> NewDiskStore order fs fileName
      | None => None
      end
  | _ => None
  end.

(** The file [db] holds the record (7, "k", "vv"), fifteen bytes, without
    its last byte. *)
Definition truncated_log (order : ByteOrder) : gmap string file :=
  let bytes := take 14 (snd (encodeKV order 7 "k" "vv")) in
  {[ "db"%string := mkfile bytes bytes ]}.

(** The value "v" followed by a zero byte. *)
Definition v_and_zero : string := String "v" (String "000" EmptyString).

(** A store is opened on the missing file [db] and [Set("k", "vv")] is
    called at time 7; then the last byte of the file is cut off behind
    the back of the store, and [Get("k")] is called: the entry of "k"
    promises fifteen bytes, fourteen can be read, and [Get] returns. *)
Definition short_read_scenario (order : ByteOrder) : Prop :=
  match NewDiskStore order ∅ "db" with
  | Some (fs0, Return (Some d0, None)) =>
      match Set_ order 7 None fs0 d0 "k" "vv" with
      | (fs1, d1, Return _) =>
          let cut := take 14 (file_bytes fs1 "db") in
          let fs2 := <["db"%string := mkfile cut cut]> fs1 in
          keyDir d1 !! "k"%string = Some (NewKeyEntry 7 0 15)
          /\ length (available fs2 "db" 0 15) = 14%nat
          /\ snd (Get order fs2 d1 "k") = Return v_and_zero
      | _ => False
      end
  | _ => False
  end.

(** * Properties *)

(** ** Bytes and [uint32] fields *)

Lemma Z_of_byte_range b : 0 <= Z_of_byte b < 256.
Proof.
  unfold Z_of_byte. pose proof (Byte.to_N_bounded b). lia.
Qed.

Lemma Z_of_byte_of_Z z : Z_of_byte (byte_of_Z z) = z mod 256.
Proof.
  unfold Z_of_byte, byte_of_Z.
  pose proof (Z.mod_pos_bound z 256 eq_refl) as Hr.
  destruct (Byte.of_N (Z.to_N (z mod 256))) as [b|] eqn:E.
  - apply Byte.to_of_N in E. rewrite E. lia.
  - apply Byte.of_N_None_iff in E. lia.
Qed.

Lemma uint32_small x : 0 <= x < 2 ^ 32 -> uint32 x = x.
Proof. intros H. unfold uint32. apply Z.mod_small. exact H. Qed.

Lemma uint32_range x : 0 <= uint32 x < 2 ^ 32.
Proof. unfold uint32. apply Z.mod_pos_bound. reflexivity. Qed.

Lemma PutUint32_length order v : length (PutUint32 order v) = 4%nat.
Proof. destruct order; reflexivity. Qed.

Lemma Uint32_range order b0 b1 b2 b3 : 0 <= Uint32 order b0 b1 b2 b3 < 2 ^ 32.
Proof.
  pose proof (Z_of_byte_range b0). pose proof (Z_of_byte_range b1).
  pose proof (Z_of_byte_range b2). pose proof (Z_of_byte_range b3).
  destruct order; unfold Uint32; lia.
Qed.

Lemma Uint32_of_bytes v :
  0 <= v < 2 ^ 32 ->
  v mod 256 + 2 ^ 8 * ((v / 2 ^ 8) mod 256) + 2 ^ 16 * ((v / 2 ^ 16) mod 256)
    + 2 ^ 24 * ((v / 2 ^ 24) mod 256) = v.
Proof.
  intros Hv.
  change (2 ^ 8) with 256. change (2 ^ 16) with 65536. change (2 ^ 24) with 16777216.
  change (2 ^ 32) with 4294967296 in Hv.
  Z.to_euclidean_division_equations. lia.
Qed.

Lemma Uint32_PutUint32 order v :
  0 <= v < 2 ^ 32 ->
  match PutUint32 order v with
  | [b0; b1; b2; b3] => Uint32 order b0 b1 b2 b3 = v
  | _ => False
  end.
Proof.
  intros Hv. destruct order; unfold PutUint32, Uint32;
    rewrite !Z_of_byte_of_Z; pose proof (Uint32_of_bytes v Hv); lia.
Qed.

Lemma encodeHeader_length order t ks vs :
  length (encodeHeader order t ks vs) = 12%nat.
Proof. unfold encodeHeader. rewrite !length_app, !PutUint32_length. reflexivity. Qed.

Lemma decodeHeader_encodeHeader order t ks vs :
  0 <= t < 2 ^ 32 -> 0 <= ks < 2 ^ 32 -> 0 <= vs < 2 ^ 32 ->
  decodeHeader order (encodeHeader order t ks vs) = Some (t, ks, vs).
Proof.
  intros Ht Hk Hv. unfold encodeHeader.
  pose proof (Uint32_PutUint32 order t Ht) as At.
  pose proof (Uint32_PutUint32 order ks Hk) as Ak.
  pose proof (Uint32_PutUint32 order vs Hv) as Av.
  destruct (PutUint32 order t) as [|t0 [|t1 [|t2 [|t3 [|]]]]]; try contradiction.
  destruct (PutUint32 order ks) as [|k0 [|k1 [|k2 [|k3 [|]]]]]; try contradiction.
  destruct (PutUint32 order vs) as [|v0 [|v1 [|v2 [|v3 [|]]]]]; try contradiction.
  simpl. congruence.
Qed.

(** A header is decoded exactly when it has twelve bytes, and its fields
    are [uint32] values. *)
Lemma decodeHeader_Some order header :
  length header = 12%nat ->
  exists t ks vs,
    decodeHeader order header = Some (t, ks, vs)
    /\ 0 <= t < 2 ^ 32 /\ 0 <= ks < 2 ^ 32 /\ 0 <= vs < 2 ^ 32.
Proof.
  intros Hl.
  do 12 (destruct header as [|? header]; [discriminate Hl|]).
  destruct header; [|discriminate Hl].
  eexists _, _, _. split; [reflexivity|].
  repeat split; apply Uint32_range.
Qed.

Lemma list_byte_of_string_length s :
  length (list_byte_of_string s) = String.length s.
Proof.
  induction s as [|a s IH]; [reflexivity|].
  cbn. f_equal. exact IH.
Qed.

Lemma fill_length len bs : (length bs <= len)%nat -> length (fill len bs) = len.
Proof. intros H. unfold fill. rewrite length_app, length_replicate. lia. Qed.

Lemma fill_full len bs : length bs = len -> fill len bs = bs.
Proof.
  intros H. unfold fill. rewrite H, Nat.sub_diag. apply app_nil_r.
Qed.

(** ** The codec on whole records *)

Lemma encodeKV_size order t k v :
  fst (encodeKV order t k v)
  = headerSize + Z.of_nat (String.length k) + Z.of_nat (String.length v).
Proof.
  unfold encodeKV. cbn [fst].
  rewrite length_app, !list_byte_of_string_length. lia.
Qed.

Lemma encodeKV_length order t k v :
  Z.of_nat (length (snd (encodeKV order t k v))) = fst (encodeKV order t k v).
Proof.
  unfold encodeKV. cbn [fst snd].
  rewrite (length_app (encodeHeader _ _ _ _)), encodeHeader_length.
  unfold headerSize. lia.
Qed.

Lemma decodeKV_encodeKV order t k v :
  0 <= t < 2 ^ 32 ->
  Z.of_nat (String.length k) < 2 ^ 32 ->
  Z.of_nat (String.length v) < 2 ^ 32 ->
  decodeKV order (snd (encodeKV order t k v)) = Some (t, k, v).
Proof.
  intros Ht Hk Hv.
  pose proof (encodeKV_length order t k v) as Hlen.
  rewrite encodeKV_size in Hlen.
  unfold decodeKV. rewrite Hlen. clear Hlen.
  unfold encodeKV. cbn [snd].
  rewrite !uint32_small by lia.
  set (h := encodeHeader order t _ _).
  assert (Hh : length h = 12%nat) by apply encodeHeader_length.
  change (Z.to_nat headerSize) with 12%nat.
  rewrite take_app_length' by (symmetry; exact Hh).
  unfold h at 1. rewrite decodeHeader_encodeHeader by lia.
  rewrite (proj2 (Z.ltb_ge _ _)) by lia.
  rewrite drop_app_length' by (symmetry; exact Hh).
  replace (Z.to_nat (headerSize + Z.of_nat (String.length k)))
    with (length h + length (list_byte_of_string k))%nat
    by (rewrite Hh, list_byte_of_string_length; unfold headerSize; lia).
  rewrite drop_app_add, drop_app_length.
  rewrite take_app_length' by (rewrite list_byte_of_string_length; lia).
  rewrite take_ge by (rewrite list_byte_of_string_length; lia).
  rewrite !string_of_list_byte_of_string. reflexivity.
Qed.

(** ** Logs *)

Lemma recordSize_min r : headerSize <= recordSize r.
Proof. destruct r as [[t k] v]. unfold recordSize, headerSize. lia. Qed.

Lemma logSize_nonneg log : 0 <= logSize log.
Proof.
  induction log as [|r log IH]; cbn [logSize]; [lia|].
  pose proof (recordSize_min r). unfold headerSize in *. lia.
Qed.

Lemma logSize_app l1 l2 : logSize (l1 ++ l2) = logSize l1 + logSize l2.
Proof. induction l1 as [|r l1 IH]; cbn [logSize app]; lia. Qed.

Lemma logSize_length log : 12 * Z.of_nat (length log) <= logSize log.
Proof.
  induction log as [|r log IH]; cbn [logSize length]; [lia|].
  pose proof (recordSize_min r). unfold headerSize in *. lia.
Qed.

Lemma logBytes_app order l1 l2 :
  logBytes order (l1 ++ l2) = logBytes order l1 ++ logBytes order l2.
Proof.
  induction l1 as [|r l1 IH]; cbn [logBytes app]; [reflexivity|].
  rewrite IH. apply app_assoc.
Qed.

Lemma encodeRecord_length order r :
  Z.of_nat (length (encodeRecord order r)) = recordSize r.
Proof.
  destruct r as [[t k] v]. unfold encodeRecord, recordSize.
  rewrite encodeKV_length. apply encodeKV_size.
Qed.

Lemma logBytes_length order log :
  Z.of_nat (length (logBytes order log)) = logSize log.
Proof.
  induction log as [|r log IH]; cbn [logBytes logSize]; [reflexivity|].
  rewrite length_app, Nat2Z.inj_add, encodeRecord_length. lia.
Qed.

(** The record that starts at the offset [logSize pre] of the log
    [pre ++ r :: post] is [r]. *)
Lemma logBytes_at order pre r post :
  take (Z.to_nat (recordSize r))
    (drop (Z.to_nat (logSize pre)) (logBytes order (pre ++ r :: post)))
  = encodeRecord order r.
Proof.
  rewrite logBytes_app. cbn [logBytes].
  rewrite drop_app_length'
    by (rewrite <- logBytes_length with (order := order); lia).
  apply take_app_length'.
  rewrite <- encodeRecord_length with (order := order). lia.
Qed.

Lemma decodeKV_encodeRecord order r :
  timestamp_ok r -> recordSize r < 2 ^ 32 ->
  decodeKV order (encodeRecord order r) = Some r.
Proof.
  destruct r as [[t k] v]. unfold timestamp_ok, recordSize, headerSize, encodeRecord.
  cbn [fst]. intros Ht Hs. apply decodeKV_encodeKV; lia.
Qed.

(** ** The index of a log *)

Lemma replay_app l1 l2 offset kd :
  replay offset kd (l1 ++ l2) = replay (offset + logSize l1) (replay offset kd l1) l2.
Proof.
  revert offset kd. induction l1 as [|r l1 IH]; intros offset kd; cbn [replay logSize app].
  - f_equal. lia.
  - rewrite IH. f_equal. lia.
Qed.

Lemma replay_snoc log r offset kd :
  replay offset kd (log ++ [r])
  = <[recordKey r := NewKeyEntry (fst (fst r)) (offset + logSize log) (recordSize r)]>
      (replay offset kd log).
Proof. rewrite replay_app. reflexivity. Qed.

(** Records under other keys leave the entry of a key alone. *)
Lemma replay_lookup_other log k offset kd :
  Forall (fun r => recordKey r <> k) log ->
  replay offset kd log !! k = kd !! k.
Proof.
  revert offset kd. induction log as [|r log IH]; intros offset kd Hk; cbn [replay].
  - reflexivity.
  - inversion Hk as [|? ? Hr Hlog]; subst.
    rewrite IH by exact Hlog. apply lookup_insert_ne. exact Hr.
Qed.

(** Last write wins: the entry of a key is that of its last record. *)
Lemma replay_lookup_last pre r post offset kd :
  Forall (fun r' => recordKey r' <> recordKey r) post ->
  replay offset kd (pre ++ r :: post) !! recordKey r
  = Some (NewKeyEntry (fst (fst r)) (offset + logSize pre) (recordSize r)).
Proof.
  intros Hpost. rewrite replay_app. cbn [replay].
  rewrite replay_lookup_other by exact Hpost.
  apply lookup_insert_eq.
Qed.

(** A key without a record has no entry. *)
Lemma replay_lookup_none log k :
  Forall (fun r => recordKey r <> k) log -> replay 0 ∅ log !! k = None.
Proof. intros H. rewrite replay_lookup_other by exact H. apply lookup_empty. Qed.

(** ** Reading a file *)

Lemma File_Read_some fs name flag pos len fl :
  fs !! name = Some fl -> flag <> O_APPEND_WRONLY ->
  take len (drop pos (f_data fl)) <> [] ->
  File_Read fs (Some (mkFile name flag pos false)) len
  = (Some (mkFile name flag (pos + length (take len (drop pos (f_data fl)))) false),
     take len (drop pos (f_data fl)), None).
Proof.
  intros Hfl Hflag Hbs. unfold File_Read. cbn [h_closed h_flag h_name h_pos].
  destruct len as [|len]; [contradiction Hbs; reflexivity|].
  cbn [Nat.eqb]. rewrite Hfl.
  destruct (take (S len) (drop pos (f_data fl))) as [|b bs] eqn:E; [contradiction|].
  destruct flag; [reflexivity|reflexivity|contradiction].
Qed.

Lemma File_Read_end fs name flag pos len fl :
  fs !! name = Some fl -> flag <> O_APPEND_WRONLY -> len <> 0%nat ->
  take len (drop pos (f_data fl)) = [] ->
  File_Read fs (Some (mkFile name flag pos false)) len
  = (Some (mkFile name flag pos false), [], Some EOF).
Proof.
  intros Hfl Hflag Hlen Hbs. unfold File_Read. cbn [h_closed h_flag h_name h_pos].
  destruct len as [|len]; [contradiction|].
  cbn [Nat.eqb]. rewrite Hfl, Hbs.
  destruct flag; [reflexivity|reflexivity|contradiction].
Qed.

(** A read hands out bytes of the file and moves the handle past them. *)
Lemma File_Read_remaining fs f len f' bs err :
  File_Read fs f len = (f', bs, err) ->
  (remaining fs f' + length bs = remaining fs f)%nat
  /\ (bs = [] -> f' = f).
Proof.
  unfold File_Read. intros H.
  destruct f as [h|]; [|inversion H; subst; split; [cbn; lia|reflexivity]].
  destruct (h_closed h) eqn:Hc; [inversion H; subst; cbn; split; [lia|reflexivity]|].
  destruct (len =? 0)%nat; [inversion H; subst; cbn; split; [lia|reflexivity]|].
  assert (Hskip : forall e, (Some h, [], e) = (f', bs, err) ->
            (remaining fs f' + length bs = remaining fs f')%nat /\ Some h = f'
            /\ bs = []).
  { intros e He. inversion He; subst. cbn. split; [lia|split; reflexivity]. }
  destruct (fs !! h_name h) as [fl|] eqn:Hfl.
  - destruct (take len (drop (h_pos h) (f_data fl))) as [|b bs'] eqn:E.
    + destruct (h_flag h); apply Hskip in H as (? & <- & ->); cbn; split;
        (lia || reflexivity).
    + assert (Hlen : (length (b :: bs') <= length (f_data fl) - h_pos h)%nat).
      { rewrite <- E, length_take, length_drop. lia. }
      assert (Hb : (h_pos h + length (b :: bs') - h_pos h = length (b :: bs'))%nat)
        by lia.
      assert (Hgo : (Some (mkFile (h_name h) (h_flag h) (h_pos h + length (b :: bs')) false),
                     b :: bs', @None error) = (f', bs, err) ->
                (remaining fs f' + length bs = remaining fs (Some h))%nat
                /\ (bs = [] -> f' = Some h)).
      { intros He. inversion He; subst. split; [|discriminate].
        unfold remaining, file_bytes. cbn [h_name h_pos]. rewrite Hfl.
        cbn [fmap option_fmap option_map default]. unfold id.
        cbn [length] in *. lia. }
      destruct (h_flag h); [exact (Hgo H)|exact (Hgo H)|].
      apply Hskip in H as (? & <- & ->). cbn. split; (lia || reflexivity).
  - destruct (h_flag h); apply Hskip in H as (? & <- & ->); cbn; split;
      (lia || reflexivity).
Qed.

Lemma file_bytes_lookup fs name fl :
  fs !! name = Some fl -> file_bytes fs name = f_data fl.
Proof. intros H. unfold file_bytes. rewrite H. reflexivity. Qed.

Lemma isFileExists_true fs name fl :
  fs !! name = Some fl -> isFileExists fs name = true.
Proof.
  intros H. unfold isFileExists. apply bool_decide_eq_true.
  rewrite H. eexists. reflexivity.
Qed.

Lemma isFileExists_false fs name :
  fs !! name = None -> isFileExists fs name = false.
Proof.
  intros H. unfold isFileExists. apply bool_decide_eq_false.
  rewrite H. apply is_Some_None.
Qed.

Section StoreProperties.

Variable order : ByteOrder.

(** ** The end of the scan *)

(** At the end of the file the header read gets nothing and the loop
    hands back the index it has built. *)
Lemma getKeyDir_loop_end fuel fs name flag pos offset kd err fl :
  fs !! name = Some fl -> flag <> O_APPEND_WRONLY ->
  (length (f_data fl) <= pos)%nat ->
  getKeyDir_loop order (S fuel) fs (Some (mkFile name flag pos false)) offset kd err
  = Some (Return (Some kd, err)).
Proof.
  intros Hfl Hflag Hpos. cbn [getKeyDir_loop].
  rewrite (File_Read_end fs name flag pos _ fl Hfl Hflag).
  - reflexivity.
  - discriminate.
  - rewrite drop_ge by exact Hpos. apply take_nil.
Qed.

(** ** Opening a store on an empty file *)

Lemma NewDiskStore_empty fs name :
  empty_file fs name ->
  exists fs' d,
    NewDiskStore order fs name = Some (fs', Return (Some d, None))
    /\ session order name [] fs' d
    /\ (forall other, other <> name -> fs' !! other = fs !! other).
Proof.
  unfold empty_file. intros Hempty.
  destruct (fs !! name) as [fl|] eqn:Hfl.
  - exists fs, (mkDiskStore ∅ (Some (mkFile name O_RDONLY 0 false))
                 (Some (mkFile name O_APPEND_WRONLY 0 false)) 0).
    split; [|split; [|reflexivity]].
    + unfold NewDiskStore, getKeyDir.
      rewrite (isFileExists_true fs name fl Hfl).
      unfold os_Open, os_OpenFile_append, scan_fuel. rewrite Hfl.
      rewrite (getKeyDir_loop_end _ fs name O_RDONLY 0 0 ∅ None fl Hfl)
        by (try discriminate; rewrite Hempty; cbn; lia).
      cbv beta iota. rewrite Hfl. reflexivity.
    + constructor; cbn; eauto.
      * rewrite (file_bytes_lookup _ _ _ Hfl). exact Hempty.
      * lia.
  - exists (<[name := mkfile [] []]> fs),
      (mkDiskStore ∅ (Some (mkFile name O_RDONLY 0 false))
         (Some (mkFile name O_APPEND_WRONLY 0 false)) 0).
    assert (Hnew : (<[name := mkfile [] []]> fs) !! name = Some (mkfile [] []))
      by apply lookup_insert_eq.
    split; [|split].
    + unfold NewDiskStore, getKeyDir.
      rewrite (isFileExists_false fs name Hfl).
      unfold os_Create, os_Open, os_OpenFile_append, scan_fuel. rewrite Hfl.
      cbn [fmap option_fmap option_map default].
      rewrite (getKeyDir_loop_end _ _ name O_RDWR 0 0 ∅ None _ Hnew)
        by (try discriminate; cbn; lia).
      cbv beta iota. rewrite Hnew. reflexivity.
    + constructor; cbn; eauto.
      * rewrite (file_bytes_lookup _ _ _ Hnew). reflexivity.
      * lia.
    + intros other Hne. apply lookup_insert_ne. congruence.
Qed.

(** ** One [Set] in a session *)

Lemma Set_session name log fs d now k v :
  session order name log fs d ->
  logSize log + recordSize (recordOf (now, k, v)) < 2 ^ 32 ->
  exists fs' d',
    Set_ order now None fs d k v = (fs', d', Return tt)
    /\ session order name (log ++ [recordOf (now, k, v)]) fs' d'
    /\ (forall other, other <> name -> fs' !! other = fs !! other)
    /\ (exists fl', fs' !! name = Some fl' /\ f_stable fl' = f_data fl').
Proof.
  intros [Hfile [fl Hfl] [pr Hr] [pw Hw] Hkd Hoff Hbound Hstamps] Hsize.
  rewrite (file_bytes_lookup _ _ _ Hfl) in Hfile.
  set (r := recordOf (now, k, v)) in *.
  assert (Hrs : fst (encodeKV order (uint32 now) k v) = recordSize r)
    by apply encodeKV_size.
  pose proof (recordSize_min r) as Hmin. unfold headerSize in Hmin.
  pose proof (logSize_nonneg log) as Hnn.
  unfold Set_.
  destruct (encodeKV order (uint32 now) k v) as [totalSize encodedKV] eqn:Henc.
  cbn [fst] in Hrs. subst totalSize.
  rewrite Hw. unfold File_Write. cbn [h_closed h_flag h_name]. rewrite Hfl.
  unfold File_Sync. cbn [h_closed h_name]. rewrite lookup_insert_eq.
  rewrite insert_insert_eq. cbn [f_data f_stable].
  eexists _, _. split; [reflexivity|].
  assert (Hnew : (<[name := mkfile (f_data fl ++ encodedKV) (f_data fl ++ encodedKV)]> fs)
                   !! name = Some (mkfile (f_data fl ++ encodedKV) (f_data fl ++ encodedKV)))
    by apply lookup_insert_eq.
  split; [|split].
  - constructor; cbn [keyDir readFileHandle writeFileHandle currentOffset].
    + rewrite (file_bytes_lookup _ _ _ Hnew). cbn [f_data].
      rewrite logBytes_app, Hfile. cbn [logBytes]. rewrite app_nil_r.
      unfold r, recordOf, encodeRecord. rewrite Henc. reflexivity.
    + eexists. exact Hnew.
    + eexists. exact Hr.
    + eexists. reflexivity.
    + rewrite replay_snoc, Hkd, Hoff.
      rewrite (uint32_small (recordSize r)) by lia. reflexivity.
    + rewrite Hoff, logSize_app. cbn [logSize].
      rewrite (uint32_small (recordSize r)) by lia.
      rewrite uint32_small by lia. lia.
    + rewrite logSize_app. cbn [logSize]. lia.
    + apply Forall_app. split; [exact Hstamps|].
      constructor; [|constructor]. unfold timestamp_ok, r, recordOf. cbn [fst].
      apply uint32_range.
  - intros other Hne. apply lookup_insert_ne. congruence.
  - eexists. split; [exact Hnew|reflexivity].
Qed.

(** A run of [Set] calls on a session appends its records to the log. *)
Lemma Sets_session name calls : forall log fs d,
  session order name log fs d ->
  logSize log + logSize (map recordOf calls) < 2 ^ 32 ->
  exists fs' d',
    Sets order calls fs d = Some (fs', d')
    /\ session order name (log ++ map recordOf calls) fs' d'
    /\ (forall other, other <> name -> fs' !! other = fs !! other).
Proof.
  induction calls as [|[[now k] v] calls IH]; intros log fs d Hses Hsize.
  - exists fs, d. cbn [Sets map]. rewrite app_nil_r. auto.
  - cbn [map logSize] in Hsize.
    pose proof (logSize_nonneg (map recordOf calls)) as Hnn.
    destruct (Set_session name log fs d now k v Hses) as (fs1 & d1 & HSet & Hses1 & Hoth1 & _);
      [lia|].
    destruct (IH (log ++ [recordOf (now, k, v)]) fs1 d1 Hses1) as (fs2 & d2 & HSets & Hses2 & Hoth2).
    { rewrite logSize_app. cbn [logSize]. lia. }
    exists fs2, d2. cbn [Sets]. rewrite HSet. split; [exact HSets|].
    split.
    + cbn [map]. rewrite <- app_assoc in Hses2. exact Hses2.
    + intros other Hne. rewrite Hoth2, Hoth1 by exact Hne. reflexivity.
Qed.

(** ** [Get] in a session *)

(** [Get] of a key returns the value of the last record of the key, when
    the file holds the log and the index is that of the log. *)
Lemma Get_log name pre r post fs d fl p :
  fs !! name = Some fl -> f_data fl = logBytes order (pre ++ r :: post) ->
  readFileHandle d = Some (mkFile name O_RDONLY p false) ->
  keyDir d = replay 0 ∅ (pre ++ r :: post) ->
  logSize (pre ++ r :: post) < 2 ^ 32 ->
  Forall timestamp_ok (pre ++ r :: post) ->
  Forall (fun r' => recordKey r' <> recordKey r) post ->
  exists p',
    Get order fs d (recordKey r)
    = (mkDiskStore (keyDir d) (Some (mkFile name O_RDONLY p' false))
         (writeFileHandle d) (currentOffset d),
       Return (snd r)).
Proof.
  intros Hfl Hfile Hr Hkd Hbound Hstamps Hpost.
  pose proof (recordSize_min r) as Hmin. unfold headerSize in Hmin.
  pose proof (logSize_nonneg pre) as Hnn. pose proof (logSize_nonneg post) as Hnn'.
  assert (Hsz : logSize pre + recordSize r + logSize post < 2 ^ 32).
  { rewrite logSize_app in Hbound. cbn [logSize] in Hbound. lia. }
  assert (Hts : timestamp_ok r).
  { apply Forall_app in Hstamps as [_ Hs]. inversion Hs; assumption. }
  assert (Hbs : take (Z.to_nat (recordSize r))
                  (drop (Z.to_nat (0 + logSize pre)) (f_data fl)) = encodeRecord order r).
  { rewrite Hfile. apply logBytes_at. }
  assert (Hlen : length (encodeRecord order r) = Z.to_nat (recordSize r)).
  { rewrite <- encodeRecord_length with (order := order). lia. }
  unfold Get. rewrite Hkd, replay_lookup_last by exact Hpost.
  cbn [Offset Size]. rewrite Hr. unfold File_Seek. cbn [h_closed h_name h_flag].
  rewrite (File_Read_some fs name O_RDONLY _ _ fl Hfl) by
    (try discriminate; rewrite Hbs; intros E; rewrite E in Hlen; cbn in Hlen; lia).
  rewrite Hbs, fill_full by exact Hlen.
  rewrite decodeKV_encodeRecord by (assumption || lia).
  destruct r as [[t k] v]. cbn [snd fst recordKey].
  eexists. rewrite <- Hkd. reflexivity.
Qed.

Lemma Get_session name pre r post fs d :
  session order name (pre ++ r :: post) fs d ->
  Forall (fun r' => recordKey r' <> recordKey r) post ->
  exists d',
    Get order fs d (recordKey r) = (d', Return (snd r))
    /\ session order name (pre ++ r :: post) fs d'.
Proof.
  intros [Hfile [fl Hfl] [pr Hr] [pw Hw] Hkd Hoff Hbound Hstamps] Hpost.
  pose proof Hfile as Hfile'. rewrite (file_bytes_lookup _ _ _ Hfl) in Hfile'.
  destruct (Get_log name pre r post fs d fl pr Hfl Hfile' Hr Hkd Hbound Hstamps Hpost)
    as [p' HGet].
  eexists. split; [exact HGet|].
  constructor; cbn [keyDir readFileHandle writeFileHandle currentOffset]; eauto.
Qed.

(** ** The recovery scan *)

(** One iteration of the loop on a whole record whose payload is not
    empty: the record is entered at the running offset and the scan goes
    on behind it. *)
Lemma getKeyDir_loop_record fuel fs name flag fl pre r rest offset kd err :
  fs !! name = Some fl -> flag <> O_APPEND_WRONLY ->
  f_data fl = pre ++ encodeRecord order r ++ rest ->
  timestamp_ok r -> payload_nonempty r ->
  0 <= offset -> offset + recordSize r < 2 ^ 32 ->
  getKeyDir_loop order (S fuel) fs (Some (mkFile name flag (length pre) false)) offset kd err
  = getKeyDir_loop order fuel fs
      (Some (mkFile name flag (length pre + length (encodeRecord order r)) false))
      (offset + recordSize r)
      (<[recordKey r := NewKeyEntry (fst (fst r)) offset (recordSize r)]> kd) err.
Proof.
  intros Hfl Hflag Hdata Hts Hpay Hoff Hsize.
  pose proof (decodeKV_encodeRecord order r Hts) as Hdec.
  destruct r as [[t k] v].
  unfold timestamp_ok, payload_nonempty, recordSize, recordKey, headerSize in *.
  cbn [fst snd] in *.
  specialize (Hdec ltac:(lia)).
  unfold encodeRecord, encodeKV in Hdata, Hdec |- *. cbn [snd] in Hdata, Hdec |- *.
  rewrite !uint32_small in Hdata, Hdec |- * by lia.
  set (h := encodeHeader order t (Z.of_nat (String.length k))
              (Z.of_nat (String.length v))) in *.
  set (p := list_byte_of_string k ++ list_byte_of_string v) in *.
  assert (Hh : length h = 12%nat) by apply encodeHeader_length.
  assert (Hp : length p = (String.length k + String.length v)%nat).
  { unfold p. rewrite length_app, !list_byte_of_string_length. reflexivity. }
  assert (Hhd : take 12 (drop (length pre) (f_data fl)) = h).
  { rewrite Hdata, drop_app_length, <- !app_assoc.
    apply take_app_length'. symmetry. exact Hh. }
  assert (Hkv : take (length p) (drop (length pre + 12) (f_data fl)) = p).
  { rewrite Hdata, drop_app_add, <- !app_assoc.
    rewrite drop_app_length' by (symmetry; exact Hh).
    apply take_app_length. }
  cbn [getKeyDir_loop]. change (Z.to_nat headerSize) with 12%nat.
  rewrite (File_Read_some fs name flag (length pre) 12 fl Hfl Hflag)
    by (rewrite Hhd; intros E; rewrite E in Hh; discriminate Hh).
  rewrite Hhd, Hh, (fill_full 12 h Hh). cbn [is_EOF orb Nat.eqb].
  unfold h at 1. rewrite decodeHeader_encodeHeader by lia. fold h.
  rewrite uint32_small by lia.
  replace (Z.to_nat (Z.of_nat (String.length k) + Z.of_nat (String.length v)))
    with (length p) by lia.
  rewrite (File_Read_some fs name flag (length pre + 12) (length p) fl Hfl Hflag)
    by (rewrite Hkv; intros E; rewrite E in Hp; cbn in Hp; lia).
  rewrite Hkv, (fill_full (length p) p eq_refl).
  destruct (length p) as [|n] eqn:Hn; [lia|]. cbn [Nat.eqb].
  rewrite Hdec. unfold headerSize.
  rewrite (uint32_small offset) by lia.
  rewrite (uint32_small (12 + _ + _)) by lia.
  rewrite length_app, Hh, Hn, Nat.add_assoc. reflexivity.
Qed.

(** The scan of a run of whole records with non-empty payloads: their
    entries are those of [replay], with the running sums as offsets. *)
Lemma getKeyDir_loop_records fs name flag fl err todo :
  fs !! name = Some fl -> flag <> O_APPEND_WRONLY ->
  forall n pre rest offset kd,
    f_data fl = pre ++ logBytes order todo ++ rest ->
    Forall timestamp_ok todo -> Forall payload_nonempty todo ->
    0 <= offset -> offset + logSize todo < 2 ^ 32 ->
    getKeyDir_loop order (length todo + n) fs
      (Some (mkFile name flag (length pre) false)) offset kd err
    = getKeyDir_loop order n fs
        (Some (mkFile name flag (length pre + length (logBytes order todo)) false))
        (offset + logSize todo) (replay offset kd todo) err.
Proof.
  intros Hfl Hflag.
  induction todo as [|r todo IH]; intros n pre rest offset kd Hdata Hts Hpay Hoff Hsize.
  - cbn [length logBytes logSize replay Nat.add]. rewrite Nat.add_0_r, Z.add_0_r.
    reflexivity.
  - cbn [logBytes logSize] in Hdata, Hsize.
    inversion Hts as [|? ? Hts1 Hts2]; subst. inversion Hpay as [|? ? Hp1 Hp2]; subst.
    pose proof (recordSize_min r) as Hmin. unfold headerSize in Hmin.
    pose proof (logSize_nonneg todo) as Hnn.
    cbn [length Nat.add].
    rewrite <- app_assoc in Hdata.
    rewrite (getKeyDir_loop_record _ fs name flag fl pre r _ offset kd err
               Hfl Hflag Hdata Hts1 Hp1 Hoff) by lia.
    rewrite <- length_app.
    rewrite (IH n (pre ++ encodeRecord order r) rest)
      by (rewrite <- ?app_assoc; assumption || lia).
    cbn [logBytes logSize replay]. rewrite !length_app, Nat.add_assoc, Z.add_assoc.
    reflexivity.
Qed.

(** ** The scan ends *)

(** More fuel than the file has bytes left is enough for the loop. *)
Lemma getKeyDir_loop_fuel fs err fuel : forall f offset kd,
  (remaining fs f < fuel)%nat ->
  is_Some (getKeyDir_loop order fuel fs f offset kd err).
Proof.
  induction fuel as [|fuel IH]; intros f offset kd Hfuel; [lia|].
  cbn [getKeyDir_loop].
  destruct (File_Read fs f (Z.to_nat headerSize)) as [[f1 hd] err1] eqn:R1.
  apply File_Read_remaining in R1 as [R1 _].
  destruct (is_EOF err1 || (length hd =? 0)%nat) eqn:Hbrk; [eexists; reflexivity|].
  apply orb_false_iff in Hbrk as [_ Hhd]. apply Nat.eqb_neq in Hhd.
  destruct err1; [eexists; reflexivity|].
  destruct (decodeHeader order _) as [[[t ks] vs]|]; [|eexists; reflexivity].
  destruct (File_Read fs f1 _) as [[f2 kv] err2] eqn:R2.
  apply File_Read_remaining in R2 as [R2 _].
  destruct err2; [eexists; reflexivity|].
  destruct (length kv =? 0)%nat; [eexists; reflexivity|].
  destruct (decodeKV order _) as [[[? key] ?]|]; [|eexists; reflexivity].
  apply IH. lia.
Qed.

Lemma remaining_le fs name flag pos closed :
  (remaining fs (Some (mkFile name flag pos closed)) < scan_fuel fs name)%nat.
Proof. unfold remaining, scan_fuel, file_bytes. cbn [h_name h_pos]. lia. Qed.

(** [getKeyDir] always comes to an end. *)
Lemma getKeyDir_terminates fs name : is_Some (getKeyDir order fs name).
Proof.
  unfold getKeyDir.
  destruct (isFileExists fs name).
  - unfold os_Open. destruct (fs !! name) eqn:Hfl; [|eexists; reflexivity].
    destruct (getKeyDir_loop_fuel fs None (scan_fuel fs name)
                (Some (mkFile name O_RDONLY 0 false)) 0 ∅) as [r Hr].
    { apply remaining_le. }
    rewrite Hr. eexists. reflexivity.
  - unfold os_Create.
    match goal with
    | |- context [getKeyDir_loop order (scan_fuel ?fs' name) _ ?f _ _ _] =>
        destruct (getKeyDir_loop_fuel fs' None (scan_fuel fs' name) f 0 ∅) as [r Hr];
          [apply remaining_le|rewrite Hr; eexists; reflexivity]
    end.
Qed.

(** So does [NewDiskStore]. *)
Lemma NewDiskStore_terminates fs name : is_Some (NewDiskStore order fs name).
Proof.
  unfold NewDiskStore.
  destruct (getKeyDir_terminates fs name) as [[fs' r] Hr]. rewrite Hr.
  destruct r as [[kd [e|]]|msg]; try (eexists; reflexivity).
  destruct (os_OpenFile_append fs' name) as [w [e|]]; [eexists; reflexivity|].
  destruct (os_Open fs' name). eexists. reflexivity.
Qed.

(** The loop hands back a nil map only together with an error. *)
Lemma getKeyDir_loop_nil_map fs err fuel : forall f offset kd e,
  getKeyDir_loop order fuel fs f offset kd err = Some (Return (None, e)) ->
  is_Some e.
Proof.
  induction fuel as [|fuel IH]; intros f offset kd e; [discriminate|].
  cbn [getKeyDir_loop].
  destruct (File_Read fs f (Z.to_nat headerSize)) as [[f1 hd] err1].
  destruct (is_EOF err1 || (length hd =? 0)%nat); [discriminate|].
  destruct err1 as [e1|]; [intros H; inversion H; eexists; reflexivity|].
  destruct (decodeHeader order _) as [[[t ks] vs]|]; [|discriminate].
  destruct (File_Read fs f1 _) as [[f2 kv] err2].
  destruct err2 as [e2|]; [intros H; inversion H; eexists; reflexivity|].
  destruct (length kv =? 0)%nat; [intros H; inversion H; eexists; reflexivity|].
  destruct (decodeKV order _) as [[[? key] ?]|]; [|discriminate].
  apply IH.
Qed.

Lemma getKeyDir_nil_map fs name fs' e :
  getKeyDir order fs name = Some (fs', Return (None, e)) -> is_Some e.
Proof.
  unfold getKeyDir.
  destruct (if isFileExists fs name
            then let '(f, err) := os_Open fs name in (fs, f, err)
            else os_Create fs name) as [[fs1 f] [e1|]].
  - intros H. inversion H. eexists. reflexivity.
  - destruct (getKeyDir_loop order _ fs1 f 0 ∅ None) as [r|] eqn:Hr; [|discriminate].
    intros H. inversion H; subst.
    apply (getKeyDir_loop_nil_map _ _ _ _ _ _ _ Hr).
Qed.

(** ** Opening a store on a log *)

(** The scan of a file that holds a log of records with non-empty
    payloads gives the index of the log. *)
Lemma getKeyDir_log fs name fl log :
  fs !! name = Some fl -> f_data fl = logBytes order log ->
  Forall timestamp_ok log -> Forall payload_nonempty log ->
  logSize log < 2 ^ 32 ->
  getKeyDir order fs name = Some (fs, Return (Some (replay 0 ∅ log), None)).
Proof.
  intros Hfl Hdata Hts Hpay Hsize.
  unfold getKeyDir. rewrite (isFileExists_true fs name fl Hfl).
  unfold os_Open. rewrite Hfl.
  pose proof (logSize_length log) as Hlen.
  pose proof (logBytes_length order log) as Hbytes.
  assert (Hfuel : scan_fuel fs name
                  = (length log + S (length (f_data fl) - length log))%nat).
  { unfold scan_fuel. rewrite Hfl. cbn [fmap option_fmap option_map default].
    unfold id. rewrite Hdata. lia. }
  rewrite Hfuel.
  rewrite (getKeyDir_loop_records fs name O_RDONLY fl None log Hfl ltac:(discriminate)
             _ [] [] 0 ∅)
    by (rewrite ?app_nil_r; cbn [app]; assumption || lia).
  rewrite (getKeyDir_loop_end _ fs name O_RDONLY _ _ _ None fl Hfl)
    by (try discriminate; rewrite Hdata; cbn [length]; lia).
  reflexivity.
Qed.

(** Opening a store on such a file succeeds: the index is that of the
    log, and the counter is zero. *)
Lemma NewDiskStore_log fs name fl log :
  fs !! name = Some fl -> f_data fl = logBytes order log ->
  Forall timestamp_ok log -> Forall payload_nonempty log ->
  logSize log < 2 ^ 32 ->
  NewDiskStore order fs name
  = Some (fs, Return (Some (mkDiskStore (replay 0 ∅ log)
                              (Some (mkFile name O_RDONLY 0 false))
                              (Some (mkFile name O_APPEND_WRONLY 0 false)) 0), None)).
Proof.
  intros Hfl Hdata Hts Hpay Hsize. unfold NewDiskStore.
  rewrite (getKeyDir_log fs name fl log Hfl Hdata Hts Hpay Hsize).
  unfold os_OpenFile_append, os_Open. rewrite Hfl. reflexivity.
Qed.

(** ** Reopening *)

(** What a session leaves in the file is found again by the next open,
    as long as no record has both an empty key and an empty value: the
    index is the one the session held, and every key reads as before. *)
Lemma reopen_session name log fs d :
  session order name log fs d ->
  Forall payload_nonempty log ->
  exists d',
    NewDiskStore order fs name = Some (fs, Return (Some d', None))
    /\ keyDir d' = keyDir d
    /\ currentOffset d' = 0
    /\ forall pre r post,
        log = pre ++ r :: post ->
        Forall (fun r' => recordKey r' <> recordKey r) post ->
        exists d'', Get order fs d' (recordKey r) = (d'', Return (snd r)).
Proof.
  intros [Hfile [fl Hfl] _ _ Hkd _ Hbound Hstamps] Hpay.
  rewrite (file_bytes_lookup _ _ _ Hfl) in Hfile.
  exists (mkDiskStore (replay 0 ∅ log) (Some (mkFile name O_RDONLY 0 false))
            (Some (mkFile name O_APPEND_WRONLY 0 false)) 0).
  split; [|split; [|split]].
  - apply (NewDiskStore_log fs name fl log); assumption.
  - cbn [keyDir]. symmetry. exact Hkd.
  - reflexivity.
  - intros pre r post -> Hpost.
    destruct (Get_log name pre r post fs
                (mkDiskStore (replay 0 ∅ (pre ++ r :: post))
                   (Some (mkFile name O_RDONLY 0 false))
                   (Some (mkFile name O_APPEND_WRONLY 0 false)) 0)
                fl 0%nat Hfl Hfile eq_refl eq_refl Hbound Hstamps Hpost) as [p' HGet].
    eexists. exact HGet.
Qed.

(** ** What [NewDiskStore] returns *)

Lemma NewDiskStore_store fs name fs' d err :
  NewDiskStore order fs name = Some (fs', Return (Some d, err)) ->
  currentOffset d = 0
  /\ writeFileHandle d = Some (mkFile name O_APPEND_WRONLY 0 false)
  /\ readFileHandle d = Some (mkFile name O_RDONLY 0 false)
  /\ is_Some (fs' !! name) /\ err = None.
Proof.
  unfold NewDiskStore. intros H.
  destruct (getKeyDir order fs name) as [[fs1 [[kd [e|]]|msg]]|];
    try discriminate H.
  unfold os_OpenFile_append, os_Open in H.
  destruct (fs1 !! name) as [fl|] eqn:Hfl; [|discriminate H].
  inversion H; subst. cbn. repeat split; eauto.
Qed.

(** ** [Set], whatever the flush answers *)

Lemma Set_appends now fsync fs d k v name p fl :
  writeFileHandle d = Some (mkFile name O_APPEND_WRONLY p false) ->
  fs !! name = Some fl ->
  exists fs' d' out,
    Set_ order now fsync fs d k v = (fs', d', out)
    /\ file_bytes fs' name = f_data fl ++ snd (encodeKV order (uint32 now) k v)
    /\ keyDir d'
       = <[k := NewKeyEntry (uint32 now) (currentOffset d)
                 (uint32 (fst (encodeKV order (uint32 now) k v)))]> (keyDir d)
    /\ out = match fsync with
             | Some e => Panic ("Failed to sync to disk " +:+ Error e)
             | None => Return tt
             end.
Proof.
  intros Hw Hfl. unfold Set_.
  destruct (encodeKV order (uint32 now) k v) as [totalSize encodedKV].
  rewrite Hw. unfold File_Write. cbn [h_closed h_flag h_name]. rewrite Hfl.
  unfold File_Sync. cbn [h_closed h_name]. rewrite lookup_insert_eq.
  destruct fsync as [e|].
  - eexists _, _, _. split; [reflexivity|].
    unfold file_bytes. rewrite lookup_insert_eq. cbn. auto.
  - eexists _, _, _. split; [reflexivity|].
    unfold file_bytes. rewrite lookup_insert_eq. cbn. auto.
Qed.

(** ** A whole session on an empty file *)

Lemma fresh_session name fs calls :
  empty_file fs name ->
  logSize (map recordOf calls) < 2 ^ 32 ->
  exists fs0 d0 fs1 d1,
    NewDiskStore order fs name = Some (fs0, Return (Some d0, None))
    /\ Sets order calls fs0 d0 = Some (fs1, d1)
    /\ session order name (map recordOf calls) fs1 d1.
Proof.
  intros Hempty Hsize.
  destruct (NewDiskStore_empty fs name Hempty) as (fs0 & d0 & Hopen & Hses0 & _).
  destruct (Sets_session name calls [] fs0 d0 Hses0) as (fs1 & d1 & HSets & Hses1 & _).
  { cbn [logSize]. lia. }
  exists fs0, d0, fs1, d1. auto.
Qed.

Lemma Sets_app calls1 : forall calls2 fs d fs1 d1,
  Sets order calls1 fs d = Some (fs1, d1) ->
  Sets order (calls1 ++ calls2) fs d = Sets order calls2 fs1 d1.
Proof.
  induction calls1 as [|[[now k] v] calls1 IH]; intros calls2 fs d fs1 d1 H.
  - cbn in H. inversion H; subst. reflexivity.
  - cbn [Sets app] in H |- *.
    destruct (Set_ order now None fs d k v) as [[fs' d'] [[]|msg]]; [|discriminate H].
    apply IH. exact H.
Qed.

Lemma Forall_recordKey (calls : list (Z * string * string)) k :
  Forall (fun c => snd (fst c) <> k) calls ->
  Forall (fun r => recordKey r <> k) (map recordOf calls).
Proof.
  intros H. apply Forall_map. eapply Forall_impl; [exact H|].
  intros [[now k'] v]. exact id.
Qed.

(** ** The claims *)

(** C1. Codec round trip: decoding the bytes that encode (t, k, v) gives
    back (t, k, v), for every [uint32] timestamp and every key and value
    whose lengths fit the [uint32] size fields of the header, whatever
    bytes they are made of (empty value, empty key, null bytes, text of
    several bytes per character). *)
Theorem codec_round_trip t k v :
  0 <= t < 2 ^ 32 ->
  Z.of_nat (String.length k) < 2 ^ 32 ->
  Z.of_nat (String.length v) < 2 ^ 32 ->
  decodeKV order (snd (encodeKV order t k v)) = Some (t, k, v)
  /\ Z.of_nat (length (snd (encodeKV order t k v))) = fst (encodeKV order t k v).
Proof.
  intros Ht Hk Hv. split.
  - apply decodeKV_encodeKV; assumption.
  - apply encodeKV_length.
Qed.

(** C2. Last write wins: on a store opened on an empty file, after
    [Set(k, v1)] and later [Set(k, v2)], with any calls before and between
    them and calls for other keys after them, [Get(k)] returns [v2]. The
    file holds every record written, the first record of [k] as well as
    the second, each at the offset at which it was appended, and the
    entry of [k] points at the second. *)
Theorem last_write_wins name fs before mid after now1 now2 k v1 v2 :
  let calls := before ++ (now1, k, v1) :: mid ++ (now2, k, v2) :: after in
  let upto1 := map recordOf before in
  let upto2 := map recordOf (before ++ (now1, k, v1) :: mid) in
  empty_file fs name ->
  Forall (fun c => snd (fst c) <> k) after ->
  logSize (map recordOf calls) < 2 ^ 32 ->
  exists fs0 d0 fs1 d1 d2,
    NewDiskStore order fs name = Some (fs0, Return (Some d0, None))
    /\ Sets order calls fs0 d0 = Some (fs1, d1)
    /\ Get order fs1 d1 k = (d2, Return v2)
    /\ file_bytes fs1 name = logBytes order (map recordOf calls)
    /\ available fs1 name (logSize upto1) (recordSize (uint32 now1, k, v1))
       = snd (encodeKV order (uint32 now1) k v1)
    /\ available fs1 name (logSize upto2) (recordSize (uint32 now2, k, v2))
       = snd (encodeKV order (uint32 now2) k v2)
    /\ keyDir d1 !! k
       = Some (NewKeyEntry (uint32 now2) (logSize upto2) (recordSize (uint32 now2, k, v2))).
Proof.
  intros calls upto1 upto2 Hempty Hafter Hsize.
  destruct (fresh_session name fs calls Hempty Hsize)
    as (fs0 & d0 & fs1 & d1 & Hopen & HSets & Hses).
  assert (Hlog : map recordOf calls
                 = upto2 ++ (uint32 now2, k, v2) :: map recordOf after).
  { unfold calls, upto2.
    change ((uint32 now2, k, v2) :: map recordOf after)
      with (map recordOf ((now2, k, v2) :: after)).
    rewrite <- map_app, <- app_assoc. reflexivity. }
  assert (Hlog1 : map recordOf calls
                  = upto1 ++ (uint32 now1, k, v1)
                      :: map recordOf (mid ++ (now2, k, v2) :: after)).
  { unfold calls, upto1. rewrite map_app. reflexivity. }
  pose proof (Forall_recordKey after k Hafter) as Hpost.
  rewrite Hlog in Hses.
  destruct (Get_session name upto2 (uint32 now2, k, v2) _ fs1 d1 Hses Hpost)
    as (d2 & HGet & _).
  exists fs0, d0, fs1, d1, d2.
  destruct Hses as [Hfile _ _ _ Hkd _ _ _].
  repeat split; try assumption.
  - rewrite Hlog. exact Hfile.
  - unfold available. rewrite Hfile, <- Hlog, Hlog1.
    apply (logBytes_at order upto1 (uint32 now1, k, v1)).
  - unfold available. rewrite Hfile.
    apply (logBytes_at order upto2 (uint32 now2, k, v2)).
  - rewrite Hkd.
    rewrite (replay_lookup_last upto2 (uint32 now2, k, v2) _ 0 ∅ Hpost).
    reflexivity.
Qed.

(** C5. Offset accounting: on a store opened on an empty file, after N
    [Set] calls whose records have the encoded sizes s1 ... sN the file
    is s1 + ... + sN bytes long, and the i-th call installs for its key
    the entry with offset s1 + ... + s(i-1) and size si. The recovery
    scan of that file computes the same: once it has gone through the
    first i records (it does as long as no record has an empty key and an
    empty value) it has entered record i with offset s1 + ... + s(i-1)
    and size si, and its running offset is s1 + ... + si. *)
Theorem offset_accounting name fs calls :
  empty_file fs name ->
  logSize (map recordOf calls) < 2 ^ 32 ->
  exists fs0 d0 fs1 d1,
    NewDiskStore order fs name = Some (fs0, Return (Some d0, None))
    /\ Sets order calls fs0 d0 = Some (fs1, d1)
    /\ Z.of_nat (length (file_bytes fs1 name)) = logSize (map recordOf calls)
    /\ forall pre now k v post,
        calls = pre ++ (now, k, v) :: post ->
        let before := logSize (map recordOf pre) in
        let size := Z.of_nat (length (snd (encodeKV order (uint32 now) k v))) in
        let entry := NewKeyEntry (uint32 now) before size in
        size = recordSize (uint32 now, k, v)
        /\ (exists fsi di,
              Sets order (pre ++ [(now, k, v)]) fs0 d0 = Some (fsi, di)
              /\ keyDir di !! k = Some entry
              /\ currentOffset di = before + size
              /\ Z.of_nat (length (file_bytes fsi name)) = before + size)
        /\ (Forall payload_nonempty (map recordOf (pre ++ [(now, k, v)])) ->
            forall n,
              getKeyDir_loop order (length (pre ++ [(now, k, v)]) + n) fs1
                (Some (mkFile name O_RDONLY 0 false)) 0 ∅ None
              = getKeyDir_loop order n fs1
                  (Some (mkFile name O_RDONLY (Z.to_nat (before + size)) false))
                  (before + size)
                  (<[k := entry]> (replay 0 ∅ (map recordOf pre))) None).
Proof.
  intros Hempty Hsize.
  destruct (NewDiskStore_empty fs name Hempty) as (fs0 & d0 & Hopen & Hses0 & _).
  destruct (Sets_session name calls [] fs0 d0 Hses0) as (fs1 & d1 & HSets & Hses1 & _).
  { cbn [logSize]. lia. }
  cbn [app] in Hses1.
  exists fs0, d0, fs1, d1. split; [exact Hopen|]. split; [exact HSets|].
  split.
  { rewrite (ses_file _ _ _ _ _ Hses1). apply logBytes_length. }
  intros pre now k v post Hcalls before size entry.
  assert (Hsz : size = recordSize (uint32 now, k, v)).
  { unfold size. apply (encodeRecord_length order (uint32 now, k, v)). }
  split; [exact Hsz|].
  assert (Hpre : map recordOf (pre ++ [(now, k, v)])
                 = map recordOf pre ++ [(uint32 now, k, v)])
    by (rewrite map_app; reflexivity).
  assert (Hall : map recordOf calls
                 = map recordOf (pre ++ [(now, k, v)]) ++ map recordOf post).
  { rewrite Hcalls, <- map_app, <- app_assoc. reflexivity. }
  pose proof (logSize_nonneg (map recordOf post)) as Hnn.
  pose proof (logSize_nonneg (map recordOf pre)) as Hnn'.
  assert (Hsizei : logSize (map recordOf (pre ++ [(now, k, v)])) = before + size).
  { rewrite Hpre, logSize_app. cbn [logSize]. fold before. lia. }
  assert (Hbound : before + size < 2 ^ 32).
  { rewrite Hall, logSize_app, Hsizei in Hsize. lia. }
  split.
  - destruct (Sets_session name (pre ++ [(now, k, v)]) [] fs0 d0 Hses0)
      as (fsi & di & HSetsi & Hsesi & _).
    { cbn [logSize]. lia. }
    cbn [app] in Hsesi. exists fsi, di. split; [exact HSetsi|].
    destruct Hsesi as [Hfile _ _ _ Hkd Hoff _ _].
    split; [|split].
    + rewrite Hkd, Hpre, replay_snoc. cbn [recordKey fst snd].
      rewrite lookup_insert_eq, <- Hsz. reflexivity.
    + rewrite Hoff. exact Hsizei.
    + rewrite Hfile, logBytes_length. exact Hsizei.
  - intros Hpay n.
    destruct Hses1 as [Hfile [fl Hfl] _ _ _ _ _ Hstamps].
    rewrite (file_bytes_lookup _ _ _ Hfl) in Hfile.
    rewrite Hall, logBytes_app in Hfile.
    rewrite Hall in Hstamps. apply Forall_app in Hstamps as [Hstamps _].
    replace (length (pre ++ [(now, k, v)]))
      with (length (map recordOf (pre ++ [(now, k, v)])))
      by apply length_map.
    rewrite (getKeyDir_loop_records fs1 name O_RDONLY fl None _ Hfl ltac:(discriminate)
               n [] _ 0 ∅ Hfile Hstamps Hpay) by lia.
    cbn [length Nat.add]. rewrite Z.add_0_l, Hsizei.
    replace (length (logBytes order (map recordOf (pre ++ [(now, k, v)]))))
      with (Z.to_nat (before + size))
      by (rewrite <- Hsizei, <- logBytes_length with (order := order); lia).
    rewrite Hpre, replay_snoc. cbn [recordKey fst snd].
    rewrite Z.add_0_l, <- Hsz. reflexivity.
Qed.

(** C6. The session counter starts at zero: whenever [NewDiskStore]
    returns a store, on an empty file or not, its [currentOffset] is 0;
    the scan does not set it to the length of the file. The next [Set]
    therefore records the offset 0, the bytes written in this session,
    while its record is appended behind what the file held before. *)
Theorem counter_starts_at_zero fs name fs' d err :
  NewDiskStore order fs name = Some (fs', Return (Some d, err)) ->
  currentOffset d = 0
  /\ forall now fsync k v,
      exists fs'' d' out,
        Set_ order now fsync fs' d k v = (fs'', d', out)
        /\ Offset <$> keyDir d' !! k = Some 0
        /\ file_bytes fs'' name
           = file_bytes fs' name ++ snd (encodeKV order (uint32 now) k v).
Proof.
  intros Hopen.
  destruct (NewDiskStore_store fs name fs' d err Hopen) as (Hoff & Hw & _ & [fl Hfl] & _).
  split; [exact Hoff|].
  intros now fsync k v.
  destruct (Set_appends now fsync fs' d k v name 0%nat fl Hw Hfl)
    as (fs'' & d' & out & HSet & Hbytes & Hkd & _).
  exists fs'', d', out. split; [exact HSet|].
  split.
  - rewrite Hkd, lookup_insert_eq, Hoff. reflexivity.
  - rewrite Hbytes, (file_bytes_lookup _ _ _ Hfl). reflexivity.
Qed.

(** C7. Missing key: [Get] of a key that has no entry in the index
    returns the empty string and does not panic, whatever the store and
    the file system; it leaves the store as it was. The result is the one
    [Get] gives for a key whose last record holds the empty value. *)
Theorem Get_missing_key fs d k :
  keyDir d !! k = None ->
  Get order fs d k = (d, Return ""%string)
  /\ forall name fs0 calls now,
      empty_file fs0 name ->
      logSize (map recordOf (calls ++ [(now, k, ""%string)])) < 2 ^ 32 ->
      exists fsa da fsb db db',
        NewDiskStore order fs0 name = Some (fsa, Return (Some da, None))
        /\ Sets order (calls ++ [(now, k, ""%string)]) fsa da = Some (fsb, db)
        /\ is_Some (keyDir db !! k)
        /\ Get order fsb db k = (db', Return ""%string).
Proof.
  intros Hnone. split.
  - unfold Get. rewrite Hnone. reflexivity.
  - intros name fs0 calls now Hempty Hsize.
    destruct (fresh_session name fs0 _ Hempty Hsize)
      as (fsa & da & fsb & db & Hopen & HSets & Hses).
    rewrite map_app in Hses. cbn [map recordOf] in Hses.
    destruct (Get_session name (map recordOf calls) (uint32 now, k, ""%string) []
                fsb db Hses (List.Forall_nil _)) as (db' & HGet & _).
    exists fsa, da, fsb, db, db'. repeat split; try assumption.
    rewrite (ses_keyDir _ _ _ _ _ Hses), replay_snoc. cbn [recordKey fst snd].
    rewrite lookup_insert_eq. eexists. reflexivity.
Qed.

(** C8, as the code has it. [Get] of a key with an entry seeks to the
    offset of the entry, reads up to [Size] bytes into a zeroed buffer of
    [Size] bytes and decodes the buffer. The number of bytes read and the
    error of the read are not looked at: when fewer than [Size] bytes can
    be read no read error is raised, and the bytes that could not be read
    are decoded as zeros. *)
Theorem Get_decodes_what_was_read fs d k e name p :
  keyDir d !! k = Some e ->
  readFileHandle d = Some (mkFile name O_RDONLY p false) ->
  snd (Get order fs d k)
  = match decodeKV order
            (fill (Z.to_nat (Size e)) (available fs name (Offset e) (Size e))) with
    | Some (_, _, value) => Return value
    | None => Panic "slice bounds out of range"
    end.
Proof.
  intros He Hr. unfold Get. rewrite He, Hr.
  unfold File_Seek, File_Read, available, file_bytes.
  cbn [h_closed h_flag h_name h_pos].
  destruct (Z.to_nat (Size e)) as [|len] eqn:Hlen.
  - cbn [Nat.eqb take]. destruct (decodeKV order _) as [[[? ?] ?]|]; reflexivity.
  - cbn [Nat.eqb]. destruct (fs !! name) as [fl|]; cbn [fmap option_fmap option_map default].
    + unfold id.
      destruct (take (S len) (drop (Z.to_nat (Offset e)) (f_data fl))) as [|b bs];
        destruct (decodeKV order _) as [[[? ?] ?]|]; reflexivity.
    + rewrite drop_nil, take_nil.
      destruct (decodeKV order _) as [[[? ?] ?]|]; reflexivity.
Qed.

(** C9. A failed flush is fatal and nothing is rolled back. [Set] returns
    only after a flush that succeeded, so that everything in the file has
    reached stable storage; when the flush fails [Set] panics. In both
    cases the store already holds the new entry of the key and the
    advanced counter. *)
Theorem Set_flush_failure now fsync fs d k v fs' d' out :
  Set_ order now fsync fs d k v = (fs', d', out) ->
  let size := uint32 (fst (encodeKV order (uint32 now) k v)) in
  keyDir d' !! k = Some (NewKeyEntry (uint32 now) (currentOffset d) size)
  /\ currentOffset d' = uint32 (currentOffset d + size)
  /\ (forall e, fsync = Some e ->
        (exists msg, out = Panic msg)
        /\ (forall h, writeFileHandle d = Some h -> h_closed h = false ->
              out = Panic ("Failed to sync to disk " +:+ Error e)))
  /\ (out = Return tt ->
        fsync = None
        /\ exists h fl,
            writeFileHandle d' = Some h /\ fs' !! h_name h = Some fl
            /\ f_stable fl = f_data fl).
Proof.
  unfold Set_.
  destruct (encodeKV order (uint32 now) k v) as [totalSize encodedKV]. cbn [fst].
  destruct (File_Write fs (writeFileHandle d) encodedKV) as [[fs1 w] werr] eqn:HW.
  destruct (File_Sync fsync fs1 w) as [fs2 serr] eqn:HS.
  intros H.
  assert (Hd : d' = mkDiskStore
                      (<[k := NewKeyEntry (uint32 now) (currentOffset d) (uint32 totalSize)]>
                         (keyDir d))
                      (readFileHandle d) w
                      (uint32 (currentOffset d + uint32 totalSize)))
    by (destruct serr; inversion H; reflexivity).
  subst d'. cbn [keyDir currentOffset writeFileHandle].
  split; [apply lookup_insert_eq|]. split; [reflexivity|].
  assert (Hw : forall h, writeFileHandle d = Some h -> h_closed h = false ->
                 exists h', w = Some h' /\ h_closed h' = false).
  { intros h Hh Hc. unfold File_Write in HW. rewrite Hh, Hc in HW.
    destruct (h_flag h), (fs !! h_name h); inversion HW; subst; eauto. }
  unfold File_Sync in HS. split.
  - intros e ->. split.
    + destruct w as [h'|]; [destruct (h_closed h')|];
        inversion HS; subst; inversion H; subst; eauto.
    + intros h Hh Hc. destruct (Hw h Hh Hc) as (h' & -> & Hc').
      rewrite Hc' in HS. inversion HS; subst. inversion H; subst. reflexivity.
  - intros ->.
    destruct w as [h'|]; [|inversion HS; subst; discriminate H].
    destruct (h_closed h'); [inversion HS; subst; discriminate H|].
    destruct fsync as [e|]; [inversion HS; subst; discriminate H|].
    split; [reflexivity|].
    destruct (fs1 !! h_name h') as [fl|]; [|inversion HS; subst; discriminate H].
    inversion HS; subst. inversion H; subst.
    eexists h', _. split; [reflexivity|]. split; [apply lookup_insert_eq|reflexivity].
Qed.

(** C10. [Close] always reports success: it returns [true] for every
    store, whatever closing the two handles answers; the errors are
    dropped. The index and the counter stay as they are. *)
Theorem Close_reports_success d :
  snd (Close d) = true
  /\ keyDir (fst (Close d)) = keyDir d
  /\ currentOffset (fst (Close d)) = currentOffset d
  /\ readFileHandle (fst (Close d)) = fst (File_Close (readFileHandle d))
  /\ writeFileHandle (fst (Close d)) = fst (File_Close (writeFileHandle d)).
Proof.
  unfold Close.
  destruct (File_Close (readFileHandle d)) as [r er].
  destruct (File_Close (writeFileHandle d)) as [w ew].
  repeat split.
Qed.

(** Closing a store twice: the second time both handles answer with an
    error, and [Close] says [true] all the same. *)
Lemma Close_twice d r w :
  readFileHandle d = Some r -> writeFileHandle d = Some w ->
  let d1 := fst (Close d) in
  snd (File_Close (readFileHandle d1)) = Some ErrClosed
  /\ snd (File_Close (writeFileHandle d1)) = Some ErrClosed
  /\ snd (Close d1) = true.
Proof.
  intros Hr Hw. unfold Close. rewrite Hr, Hw. unfold File_Close.
  destruct (h_closed r) eqn:Cr, (h_closed w) eqn:Cw; cbn; rewrite ?Cr, ?Cw;
    repeat split.
Qed.

(** ** Truncated files that the scan does reject *)

(** A file that ends inside a header: the rest of the header buffer stays
    zero, the payload read finds the end of the file, and the scan fails. *)
Lemma getKeyDir_loop_short_header fuel fs name flag fl pre hb offset kd err :
  fs !! name = Some fl -> flag <> O_APPEND_WRONLY ->
  f_data fl = pre ++ hb -> (0 < length hb < 12)%nat ->
  exists e,
    getKeyDir_loop order (S fuel) fs (Some (mkFile name flag (length pre) false))
      offset kd err
    = Some (Return (None, Some e)).
Proof.
  intros Hfl Hflag Hdata Hhb.
  assert (Hhd : take 12 (drop (length pre) (f_data fl)) = hb).
  { rewrite Hdata, drop_app_length. apply take_ge. lia. }
  cbn [getKeyDir_loop]. change (Z.to_nat headerSize) with 12%nat.
  rewrite (File_Read_some fs name flag (length pre) 12 fl Hfl Hflag)
    by (rewrite Hhd; intros E; rewrite E in Hhb; cbn in Hhb; lia).
  rewrite Hhd. cbn [is_EOF orb].
  destruct (length hb) as [|n] eqn:Hn; [lia|]. cbn [Nat.eqb].
  destruct (decodeHeader_Some order (fill 12 hb)) as (t & ks & vs & Hdec & _).
  { apply fill_length. lia. }
  rewrite Hdec.
  destruct (Z.to_nat (uint32 (ks + vs))) as [|len] eqn:Hlen.
  - cbn. eexists. reflexivity.
  - rewrite (File_Read_end fs name flag _ (S len) fl Hfl Hflag).
    + eexists. reflexivity.
    + discriminate.
    + rewrite Hdata, drop_ge by (rewrite length_app; lia). apply take_nil.
Qed.

(** A file that ends right behind a header which announces a payload:
    the payload read finds the end of the file, and the scan fails. *)
Lemma getKeyDir_loop_no_payload fuel fs name flag fl pre t ks vs offset kd err :
  fs !! name = Some fl -> flag <> O_APPEND_WRONLY ->
  f_data fl = pre ++ encodeHeader order t ks vs ->
  0 <= t < 2 ^ 32 -> 0 <= ks < 2 ^ 32 -> 0 <= vs < 2 ^ 32 ->
  0 < ks + vs < 2 ^ 32 ->
  getKeyDir_loop order (S fuel) fs (Some (mkFile name flag (length pre) false))
    offset kd err
  = Some (Return (None, Some EOF)).
Proof.
  intros Hfl Hflag Hdata Ht Hks Hvs Hsum.
  set (h := encodeHeader order t ks vs) in *.
  assert (Hh : length h = 12%nat) by apply encodeHeader_length.
  assert (Hhd : take 12 (drop (length pre) (f_data fl)) = h).
  { rewrite Hdata, drop_app_length. apply take_ge. lia. }
  cbn [getKeyDir_loop]. change (Z.to_nat headerSize) with 12%nat.
  rewrite (File_Read_some fs name flag (length pre) 12 fl Hfl Hflag)
    by (rewrite Hhd; intros E; rewrite E in Hh; discriminate Hh).
  rewrite Hhd, Hh, (fill_full 12 h Hh). cbn [is_EOF orb Nat.eqb].
  unfold h at 1. rewrite decodeHeader_encodeHeader by lia.
  rewrite uint32_small by lia.
  rewrite (File_Read_end fs name flag _ _ fl Hfl Hflag).
  - reflexivity.
  - lia.
  - rewrite Hdata, drop_ge by (rewrite length_app; lia). apply take_nil.
Qed.

(** Whole records followed by a piece of a header: the open fails. *)
Lemma NewDiskStore_short_header fs name fl log hb :
  fs !! name = Some fl -> f_data fl = logBytes order log ++ hb ->
  (0 < length hb < 12)%nat ->
  Forall timestamp_ok log -> Forall payload_nonempty log ->
  logSize log < 2 ^ 32 ->
  exists e, NewDiskStore order fs name = Some (fs, Return (None, Some e)).
Proof.
  intros Hfl Hdata Hhb Hts Hpay Hsize.
  pose proof (logSize_length log) as Hlen.
  pose proof (logBytes_length order log) as Hbytes.
  unfold NewDiskStore, getKeyDir. rewrite (isFileExists_true fs name fl Hfl).
  unfold os_Open. rewrite Hfl.
  assert (Hfuel : scan_fuel fs name
                  = (length log + S (length (f_data fl) - length log))%nat).
  { unfold scan_fuel. rewrite Hfl. cbn [fmap option_fmap option_map default].
    unfold id. rewrite Hdata, length_app. lia. }
  rewrite Hfuel.
  rewrite (getKeyDir_loop_records fs name O_RDONLY fl None log Hfl ltac:(discriminate)
             _ [] hb 0 ∅) by (cbn [app]; assumption || lia).
  cbn [length Nat.add].
  destruct (getKeyDir_loop_short_header (length (f_data fl) - length log) fs name
              O_RDONLY fl (logBytes order log) hb (0 + logSize log)
              (replay 0 ∅ log) None Hfl ltac:(discriminate) Hdata Hhb) as [e He].
  rewrite He. exists e. reflexivity.
Qed.

End StoreProperties.

(** * The claims on concrete inputs *)

(** The empty key, and a value with a null byte and a character of two
    bytes, sent through the codec in little-endian order. *)
Lemma codec_round_trip_witness :
  let v := String "a" (String "000" "é") in
  decodeKV LittleEndian (snd (encodeKV LittleEndian 1700000000 "" v))
  = Some (1700000000, ""%string, v)
  /\ String.length v = 4%nat.
Proof.
  intros v. split; [|reflexivity].
  apply (codec_round_trip LittleEndian 1700000000 "" v).
  - lia.
  - vm_compute. reflexivity.
  - vm_compute. reflexivity.
Defined.

(** The same in big-endian order, with an empty value. *)
Example codec_round_trip_big_endian :
  decodeKV BigEndian (snd (encodeKV BigEndian 4294967295 "key" ""))
  = Some (4294967295, "key"%string, ""%string).
Proof. vm_compute. reflexivity. Qed.

(** "k" is set twice with a call for another key in between and one
    after. *)
Lemma last_write_wins_witness :
  exists fs0 d0 fs1 d1 d2,
    NewDiskStore LittleEndian ∅ "db" = Some (fs0, Return (Some d0, None))
    /\ Sets LittleEndian
         [(1, "a", "x"); (2, "k", "old"); (3, "b", "y"); (4, "k", "new"); (5, "c", "z")]%string
         fs0 d0 = Some (fs1, d1)
    /\ Get LittleEndian fs1 d1 "k" = (d2, Return "new"%string)
    /\ keyDir d1 !! "k"%string = Some (NewKeyEntry 4 44 16).
Proof.
  destruct (last_write_wins LittleEndian "db" ∅
              [(1, "a", "x")]%string [(3, "b", "y")]%string [(5, "c", "z")]%string
              2 4 "k" "old" "new")
    as (fs0 & d0 & fs1 & d1 & d2 & Hopen & HSets & HGet & _ & _ & _ & Hkd).
  - unfold empty_file. rewrite lookup_empty. exact I.
  - repeat constructor. discriminate.
  - vm_compute. reflexivity.
  - exists fs0, d0, fs1, d1, d2.
    split; [exact Hopen|]. split; [exact HSets|]. split; [exact HGet|exact Hkd].
Defined.

(** Two calls, of sizes 14 and 15: the file has 29 bytes and the second
    entry starts at 14. *)
Lemma offset_accounting_witness :
  exists fs0 d0 fs1 d1,
    NewDiskStore BigEndian ∅ "db" = Some (fs0, Return (Some d0, None))
    /\ Sets BigEndian [(1, "a", "x"); (2, "b", "yy")]%string fs0 d0 = Some (fs1, d1)
    /\ Z.of_nat (length (file_bytes fs1 "db")) = 29
    /\ exists fsi di,
        Sets BigEndian [(1, "a", "x"); (2, "b", "yy")]%string fs0 d0 = Some (fsi, di)
        /\ keyDir di !! "b"%string = Some (NewKeyEntry 2 14 15).
Proof.
  destruct (offset_accounting BigEndian "db" ∅ [(1, "a", "x"); (2, "b", "yy")]%string)
    as (fs0 & d0 & fs1 & d1 & Hopen & HSets & Hlen & Hith).
  - unfold empty_file. rewrite lookup_empty. exact I.
  - vm_compute. reflexivity.
  - destruct (Hith [(1, "a", "x")]%string 2 "b"%string "yy"%string [] eq_refl)
      as (_ & (fsi & di & HSetsi & Hkd & _) & _).
    exists fs0, d0, fs1, d1.
    split; [exact Hopen|]. split; [exact HSets|]. split; [exact Hlen|].
    exists fsi, di. split; [exact HSetsi|exact Hkd].
Defined.

(** A store opened on a file that already holds a record of fifteen
    bytes: the counter is 0 and the next record is entered at offset 0. *)
Lemma counter_starts_at_zero_witness :
  let bytes := snd (encodeKV LittleEndian 7 "k" "vv") in
  let fs : gmap string file := {[ "db"%string := mkfile bytes bytes ]} in
  let d := mkDiskStore {[ "k"%string := NewKeyEntry 7 0 15 ]}
             (Some (mkFile "db" O_RDONLY 0 false))
             (Some (mkFile "db" O_APPEND_WRONLY 0 false)) 0 in
  NewDiskStore LittleEndian fs "db" = Some (fs, Return (Some d, None))
  /\ length (file_bytes fs "db") = 15%nat
  /\ currentOffset d = 0
  /\ exists fs'' d' out,
      Set_ LittleEndian 8 None fs d "j" "w" = (fs'', d', out)
      /\ Offset <$> keyDir d' !! "j"%string = Some 0
      /\ file_bytes fs'' "db"
         = file_bytes fs "db" ++ snd (encodeKV LittleEndian (uint32 8) "j" "w").
Proof.
  intros bytes fs d.
  assert (Hopen : NewDiskStore LittleEndian fs "db" = Some (fs, Return (Some d, None)))
    by (vm_compute; reflexivity).
  split; [exact Hopen|]. split; [reflexivity|].
  destruct (counter_starts_at_zero LittleEndian fs "db" fs d None Hopen) as [Hoff HSet].
  split; [exact Hoff|]. exact (HSet 8 None "j"%string "w"%string).
Defined.

(** A store that has never seen the key. *)
Lemma Get_missing_key_witness :
  let d := mkDiskStore {[ "othello"%string := NewKeyEntry 7 0 30 ]} None None 30 in
  Get LittleEndian ∅ d "missing" = (d, Return ""%string).
Proof.
  intros d.
  apply (Get_missing_key LittleEndian ∅ d "missing").
  vm_compute. reflexivity.
Defined.

(** C8 as the claim has it fails: the file is cut by one byte after the
    record of "k" was written, [Get("k")] can read fourteen of the fifteen
    bytes of the entry, and it returns the value "v" followed by a zero
    byte instead of failing; in both byte orders. *)
Lemma Get_short_read_returns :
  short_read_scenario LittleEndian /\ short_read_scenario BigEndian.
Proof. split; vm_compute; repeat split. Qed.

(** The store and the cut file of the scenario, through the theorem. *)
Lemma Get_decodes_what_was_read_witness :
  let d := mkDiskStore {[ "k"%string := NewKeyEntry 7 0 15 ]}
             (Some (mkFile "db" O_RDONLY 0 false))
             (Some (mkFile "db" O_APPEND_WRONLY 15 false)) 15 in
  length (available (truncated_log LittleEndian) "db" 0 15) = 14%nat
  /\ snd (Get LittleEndian (truncated_log LittleEndian) d "k") = Return v_and_zero.
Proof.
  intros d. split; [reflexivity|].
  rewrite (Get_decodes_what_was_read LittleEndian (truncated_log LittleEndian) d "k"
             (NewKeyEntry 7 0 15) "db" 0).
  - vm_compute. reflexivity.
  - vm_compute. reflexivity.
  - reflexivity.
Defined.

(** The device refuses the flush: [Set] panics, and the entry and the
    counter are those of a call that went through. *)
Lemma Set_flush_failure_witness :
  let fs0 : gmap string file := {[ "db"%string := mkfile [] [] ]} in
  let d0 := mkDiskStore ∅ (Some (mkFile "db" O_RDONLY 0 false))
              (Some (mkFile "db" O_APPEND_WRONLY 0 false)) 0 in
  let res := Set_ LittleEndian 7 (Some (Errno "input/output error")) fs0 d0 "k" "vv" in
  snd res = Panic "Failed to sync to disk input/output error"
  /\ keyDir (snd (fst res)) !! "k"%string = Some (NewKeyEntry 7 0 15)
  /\ currentOffset (snd (fst res)) = 15.
Proof.
  intros fs0 d0 res.
  destruct (Set_flush_failure LittleEndian 7 (Some (Errno "input/output error"))
              fs0 d0 "k" "vv" (fst (fst res)) (snd (fst res)) (snd res))
    as (Hkd & Hoff & Hpanic & _).
  - unfold res. destruct (Set_ _ _ _ _ _ _ _) as [[fs' d'] out]. reflexivity.
  - destruct (Hpanic _ eq_refl) as [_ Hp].
    split; [exact (Hp _ eq_refl eq_refl)|]. split; [exact Hkd|exact Hoff].
Defined.

(** C3 on the failing input: [Set("", "")] on a new store, [Close], and
    the file cannot be opened any more. The record is twelve bytes, all
    header; the scan asks for a payload of zero bytes, gets zero bytes,
    and takes that for the end of the file. *)
Theorem reopen_after_empty_record_fails order :
  reopen_after order "db" [(0, ""%string, ""%string)]
  = Some (Return (None, Some (errorString "EOF reading key"))).
Proof. destruct order; vm_compute; reflexivity. Qed.

(** With the call of the spec in front the store is lost as well. *)
Example reopen_after_othello_and_empty_record :
  reopen_after LittleEndian "db"
    [(1, "othello", "shakespeare"); (2, "", "")]%string
  = Some (Return (None, Some (errorString "EOF reading key"))).
Proof. vm_compute. reflexivity. Qed.

(** C4 on the failing input: the file holds a record of fifteen bytes
    without its last byte. The open succeeds, and the index has an entry
    of fifteen bytes for "k" in a file of fourteen; [Get] then returns a
    value that was never written. *)
Theorem open_truncated_payload_succeeds order :
  match NewDiskStore order (truncated_log order) "db" with
  | Some (_, Return (Some d, None)) =>
      keyDir d !! "k"%string = Some (NewKeyEntry 7 0 15)
      /\ length (file_bytes (truncated_log order) "db") = 14%nat
      /\ snd (Get order (truncated_log order) d "k") = Return v_and_zero
  | _ => False
  end.
Proof. destruct order; vm_compute; repeat split. Qed.

(** * Further properties of the store *)

(** ** The last record of a key *)

(** Either a log has no record of a key, or it splits at the last one. *)
Lemma last_record_dec (log : list record) k :
  Forall (fun r => recordKey r <> k) log
  \/ exists pre r post,
      log = pre ++ r :: post /\ recordKey r = k
      /\ Forall (fun r' => recordKey r' <> k) post.
Proof.
  induction log as [|r log IH].
  - left. constructor.
  - destruct IH as [Hnone|(pre & r' & post & -> & Hk & Hpost)].
    + destruct (decide (recordKey r = k)) as [Hr|Hr].
      * right. exists [], r, log. auto.
      * left. constructor; assumption.
    + right. exists (r :: pre), r', post. auto.
Qed.

Lemma values_lookup_other log k : forall m,
  Forall (fun r => recordKey r <> k) log -> values m log !! k = m !! k.
Proof.
  induction log as [|r log IH]; intros m Hk; cbn [values]; [reflexivity|].
  inversion Hk as [|? ? Hr Hlog]; subst.
  rewrite IH by exact Hlog. apply lookup_insert_ne. exact Hr.
Qed.

Lemma values_app l1 : forall l2 m, values m (l1 ++ l2) = values (values m l1) l2.
Proof.
  induction l1 as [|r l1 IH]; intros l2 m; cbn [values app]; [reflexivity|].
  apply IH.
Qed.

Lemma values_lookup_last pre r post m :
  Forall (fun r' => recordKey r' <> recordKey r) post ->
  values m (pre ++ r :: post) !! recordKey r = Some (snd r).
Proof.
  intros Hpost. rewrite values_app. cbn [values].
  rewrite values_lookup_other by exact Hpost. apply lookup_insert_eq.
Qed.

(** An entry of the index of a log is the entry of the last record of
    its key. *)
Lemma replay_lookup_Some log k e :
  replay 0 ∅ log !! k = Some e ->
  exists pre r post,
    log = pre ++ r :: post /\ recordKey r = k
    /\ Forall (fun r' => recordKey r' <> k) post
    /\ e = NewKeyEntry (fst (fst r)) (logSize pre) (recordSize r).
Proof.
  intros He.
  destruct (last_record_dec log k) as [Hnone|(pre & r & post & -> & Hk & Hpost)].
  - rewrite replay_lookup_none in He by exact Hnone. discriminate He.
  - exists pre, r, post. repeat split; try assumption.
    subst k. rewrite replay_lookup_last in He by exact Hpost.
    inversion He. reflexivity.
Qed.

(** Decoding looks at the record in front and at nothing behind it. *)
Lemma decodeKV_app order r extra :
  timestamp_ok r -> recordSize r < 2 ^ 32 ->
  decodeKV order (encodeRecord order r ++ extra) = Some r.
Proof.
  intros Hts Hsize.
  pose proof (decodeKV_encodeRecord order r Hts Hsize) as Hdec.
  pose proof (encodeRecord_length order r) as Hlen.
  pose proof (recordSize_min r) as Hmin. unfold headerSize in Hmin.
  unfold decodeKV in Hdec |- *. change (Z.to_nat headerSize) with 12%nat in *.
  rewrite take_app_le by lia.
  destruct (decodeHeader order (take 12 (encodeRecord order r)))
    as [[[t ks] vs]|] eqn:Hh; [|discriminate Hdec].
  destruct (Z.of_nat (length (encodeRecord order r)) <? headerSize + ks + vs) eqn:Hlt;
    [discriminate Hdec|].
  apply Z.ltb_ge in Hlt. unfold headerSize in Hlt.
  assert (Hks : 0 <= ks /\ 0 <= vs).
  { destruct (decodeHeader_Some order (take 12 (encodeRecord order r)))
      as (t' & ks' & vs' & Hh' & _ & Hk' & Hv').
    - rewrite length_take. lia.
    - rewrite Hh in Hh'. inversion Hh'; subst. lia. }
  rewrite (proj2 (Z.ltb_ge _ _)) by (rewrite length_app; unfold headerSize; lia).
  rewrite <- Hdec. unfold headerSize. f_equal. f_equal; [f_equal|]; f_equal.
  - rewrite drop_app_le by lia. apply take_app_le. rewrite length_drop. lia.
  - rewrite drop_app_le by lia. apply take_app_le. rewrite length_drop. lia.
Qed.

(** A buffer of zeros decodes to the empty key and the empty value. *)
Lemma decodeKV_zeros order n :
  (12 <= n)%nat ->
  decodeKV order (replicate n Byte.x00) = Some (0, ""%string, ""%string).
Proof.
  intros Hn. unfold decodeKV. change (Z.to_nat headerSize) with 12%nat.
  rewrite take_replicate, Nat.min_l by exact Hn.
  replace (decodeHeader order (replicate 12 Byte.x00)) with (Some (0, 0, 0))
    by (destruct order; reflexivity).
  rewrite length_replicate.
  rewrite (proj2 (Z.ltb_ge _ _)) by (unfold headerSize; lia).
  reflexivity.
Qed.

Section StoreRuns.

Variable order : ByteOrder.

(** ** [Get] against the map of the log *)

(** When the file holds a log and the index is that of the log, [Get]
    returns what the map of the log has for the key, the empty string if
    it has nothing; only the read handle moves. *)
Lemma Get_values name log fs d fl p k :
  fs !! name = Some fl -> f_data fl = logBytes order log ->
  readFileHandle d = Some (mkFile name O_RDONLY p false) ->
  keyDir d = replay 0 ∅ log ->
  logSize log < 2 ^ 32 -> Forall timestamp_ok log ->
  exists p',
    Get order fs d k
    = (mkDiskStore (keyDir d) (Some (mkFile name O_RDONLY p' false))
         (writeFileHandle d) (currentOffset d),
       Return (default ""%string (values ∅ log !! k))).
Proof.
  intros Hfl Hfile Hr Hkd Hbound Hstamps.
  destruct (last_record_dec log k) as [Hnone|(pre & r & post & -> & <- & Hpost)].
  - exists p. unfold Get.
    rewrite Hkd, (replay_lookup_none log k Hnone).
    rewrite (values_lookup_other log k ∅ Hnone), lookup_empty. cbn [default].
    rewrite <- Hkd, <- Hr. destruct d. reflexivity.
  - rewrite values_lookup_last by exact Hpost. cbn [default].
    apply (Get_log order name pre r post fs d fl p); assumption.
Qed.

(** ** Runs in a session *)

Lemma opRecords_app ops1 ops2 :
  opRecords (ops1 ++ ops2) = opRecords ops1 ++ opRecords ops2.
Proof.
  induction ops1 as [|[now k v|k] ops1 IH]; cbn [opRecords app];
    [reflexivity| |exact IH].
  rewrite IH. reflexivity.
Qed.

(** A run on a session gives what the same run gives on the map of the
    log, and leaves a session with the records of its [Set] calls added. *)
Lemma run_session name ops : forall log fs d,
  session order name log fs d ->
  logSize log + logSize (opRecords ops) < 2 ^ 32 ->
  exists fs1 d1,
    run order ops fs d = Some (fs1, d1, snd (run_map ops (values ∅ log)))
    /\ session order name (log ++ opRecords ops) fs1 d1
    /\ fst (run_map ops (values ∅ log)) = values ∅ (log ++ opRecords ops)
    /\ (forall other, other <> name -> fs1 !! other = fs !! other).
Proof.
  induction ops as [|[now k v|k] ops IH]; intros log fs d Hses Hsize.
  - exists fs, d. cbn [run run_map opRecords snd fst]. rewrite app_nil_r. auto.
  - cbn [opRecords logSize] in Hsize.
    pose proof (logSize_nonneg (opRecords ops)) as Hnn.
    destruct (Set_session order name log fs d now k v Hses)
      as (fs1 & d1 & HSet & Hses1 & Hoth1 & _); [lia|].
    destruct (IH (log ++ [recordOf (now, k, v)]) fs1 d1 Hses1)
      as (fs2 & d2 & Hrun & Hses2 & Hmap & Hoth2).
    { rewrite logSize_app. cbn [logSize]. lia. }
    rewrite values_app in Hrun, Hmap. cbn [values recordOf recordKey fst snd] in Hrun, Hmap.
    rewrite <- app_assoc in Hses2, Hmap. cbn [app] in Hses2, Hmap.
    exists fs2, d2. cbn [run run_map opRecords]. rewrite HSet.
    split; [exact Hrun|]. split; [exact Hses2|]. split; [exact Hmap|].
    intros other Hne. rewrite Hoth2, Hoth1 by exact Hne. reflexivity.
  - cbn [opRecords] in Hsize |- *.
    pose proof Hses as [Hfile [fl Hfl] [p Hr] _ Hkd _ Hbound Hstamps].
    rewrite (file_bytes_lookup _ _ _ Hfl) in Hfile.
    destruct (Get_values name log fs d fl p k Hfl Hfile Hr Hkd Hbound Hstamps)
      as [p' HGet].
    set (d' := mkDiskStore (keyDir d) (Some (mkFile name O_RDONLY p' false))
                 (writeFileHandle d) (currentOffset d)) in *.
    assert (Hses' : session order name log fs d').
    { destruct Hses. constructor; cbn [keyDir readFileHandle writeFileHandle currentOffset];
        eauto. }
    destruct (IH log fs d' Hses' Hsize) as (fs2 & d2 & Hrun & Hses2 & Hmap & Hoth2).
    exists fs2, d2. cbn [run run_map]. rewrite HGet, Hrun.
    destruct (run_map ops (values ∅ log)) as [m' out]. cbn [fst snd] in *.
    auto.
Qed.

(** [Close] closes the two handles and leaves the rest of the store. *)
Lemma Close_store d :
  fst (Close d)
  = mkDiskStore (keyDir d) (fst (File_Close (readFileHandle d)))
      (fst (File_Close (writeFileHandle d))) (currentOffset d).
Proof.
  unfold Close.
  destruct (File_Close (readFileHandle d)), (File_Close (writeFileHandle d)).
  reflexivity.
Qed.

(** ** The store as a map *)

(** X1. A store opened on an empty file behaves like a finite map: in
    every run of [Set] and [Get] calls that writes less than 2^32 bytes no
    call panics and every [Get] returns the value of the latest [Set] of
    its key, or the empty string if the key has not been set; the file
    holds the records of the [Set] calls in the order of the calls. *)
Theorem store_refines_map name fs ops :
  empty_file fs name ->
  logSize (opRecords ops) < 2 ^ 32 ->
  exists fs0 d0 fs1 d1,
    NewDiskStore order fs name = Some (fs0, Return (Some d0, None))
    /\ run order ops fs0 d0 = Some (fs1, d1, snd (run_map ops ∅))
    /\ file_bytes fs1 name = logBytes order (opRecords ops).
Proof.
  intros Hempty Hsize.
  destruct (NewDiskStore_empty order fs name Hempty) as (fs0 & d0 & Hopen & Hses0 & _).
  destruct (run_session name ops [] fs0 d0 Hses0) as (fs1 & d1 & Hrun & Hses1 & _).
  { cbn [logSize]. lia. }
  exists fs0, d0, fs1, d1. split; [exact Hopen|]. split; [exact Hrun|].
  apply (ses_file _ _ _ _ _ Hses1).
Qed.

(** X2. What a run leaves behind is found again: when no [Set] of the run
    had both an empty key and an empty value, opening a store on the file
    afterwards succeeds without changing the file, the new store has the
    index of the old one, and its [Get] returns for every key the value
    the run left for it, the empty string for a key never set. *)
Theorem reopen_preserves_map name fs ops :
  empty_file fs name ->
  logSize (opRecords ops) < 2 ^ 32 ->
  Forall payload_nonempty (opRecords ops) ->
  exists fs0 d0 fs1 d1 out d3,
    NewDiskStore order fs name = Some (fs0, Return (Some d0, None))
    /\ run order ops fs0 d0 = Some (fs1, d1, out)
    /\ NewDiskStore order fs1 name = Some (fs1, Return (Some d3, None))
    /\ keyDir d3 = keyDir (fst (Close d1))
    /\ forall k, exists d4,
        Get order fs1 d3 k
        = (d4, Return (default ""%string (fst (run_map ops ∅) !! k))).
Proof.
  intros Hempty Hsize Hpay.
  destruct (NewDiskStore_empty order fs name Hempty) as (fs0 & d0 & Hopen & Hses0 & _).
  destruct (run_session name ops [] fs0 d0 Hses0)
    as (fs1 & d1 & Hrun & Hses1 & Hmap & _).
  { cbn [logSize]. lia. }
  cbn [app values] in Hses1, Hmap.
  pose proof Hses1 as [Hfile [fl Hfl] _ _ Hkd _ Hbound Hstamps].
  rewrite (file_bytes_lookup _ _ _ Hfl) in Hfile.
  pose proof (NewDiskStore_log order fs1 name fl _ Hfl Hfile Hstamps Hpay Hbound) as Hre.
  eexists fs0, d0, fs1, d1, _, _. split; [exact Hopen|]. split; [exact Hrun|].
  split; [exact Hre|]. split.
  - rewrite Close_store. cbn [keyDir]. symmetry. exact Hkd.
  - intros k. rewrite Hmap.
    edestruct (Get_values name (opRecords ops) fs1) as [p' HGet];
      [exact Hfl|exact Hfile| | |exact Hbound|exact Hstamps|eexists; exact HGet];
      reflexivity.
Qed.

(** ** The index stays inside the file *)

(** X3. After every run on a store opened on an empty file the index
    agrees with the file: the keys with an entry are the keys that were
    set, and the entry of a key names a span of bytes that lies inside
    the file and holds a whole record with this key, the timestamp of the
    entry and the value last set for the key. *)
Theorem entries_lie_in_file name fs ops :
  empty_file fs name ->
  logSize (opRecords ops) < 2 ^ 32 ->
  exists fs0 d0 fs1 d1 out,
    NewDiskStore order fs name = Some (fs0, Return (Some d0, None))
    /\ run order ops fs0 d0 = Some (fs1, d1, out)
    /\ (forall k, is_Some (keyDir d1 !! k) <-> is_Some (fst (run_map ops ∅) !! k))
    /\ forall k e,
        keyDir d1 !! k = Some e ->
        0 <= Offset e /\ headerSize <= Size e
        /\ Offset e + Size e <= Z.of_nat (length (file_bytes fs1 name))
        /\ exists v,
            fst (run_map ops ∅) !! k = Some v
            /\ decodeKV order (available fs1 name (Offset e) (Size e))
               = Some (Timestamp e, k, v).
Proof.
  intros Hempty Hsize.
  destruct (NewDiskStore_empty order fs name Hempty) as (fs0 & d0 & Hopen & Hses0 & _).
  destruct (run_session name ops [] fs0 d0 Hses0)
    as (fs1 & d1 & Hrun & Hses1 & Hmap & _).
  { cbn [logSize]. lia. }
  cbn [app values] in Hses1, Hmap.
  destruct Hses1 as [Hfile _ _ _ Hkd _ Hbound Hstamps].
  eexists fs0, d0, fs1, d1, _. split; [exact Hopen|]. split; [exact Hrun|].
  rewrite Hmap, Hkd. split.
  - intros k.
    destruct (last_record_dec (opRecords ops) k)
      as [Hnone|(pre & r & post & -> & <- & Hpost)].
    + rewrite (replay_lookup_none _ k Hnone).
      rewrite (values_lookup_other _ k ∅ Hnone), lookup_empty.
      split; intros [? ?]; discriminate.
    + rewrite replay_lookup_last, values_lookup_last by exact Hpost.
      split; intros _; eexists; reflexivity.
  - intros k e He.
    apply replay_lookup_Some in He as (pre & r & post & Hlog & <- & Hpost & ->).
    rewrite Hlog in *. cbn [Offset Size Timestamp].
    pose proof (logSize_nonneg pre) as Hnn. pose proof (logSize_nonneg post) as Hnn'.
    pose proof (recordSize_min r) as Hmin.
    rewrite logSize_app in Hbound. cbn [logSize] in Hbound.
    split; [exact Hnn|]. split; [exact Hmin|]. split.
    + rewrite Hfile, logBytes_length, logSize_app. cbn [logSize]. lia.
    + exists (snd r). split; [apply values_lookup_last; exact Hpost|].
      unfold available. rewrite Hfile, logBytes_at.
      rewrite decodeKV_encodeRecord.
      * destruct r as [[t k] v]. reflexivity.
      * apply Forall_app in Hstamps as [_ Hs]. inversion Hs; assumption.
      * unfold headerSize in Hmin. lia.
Qed.

(** ** Everything that was set is on stable storage *)

Lemma Sets_stable name calls c : forall log fs d,
  session order name log fs d ->
  logSize log + logSize (map recordOf (calls ++ [c])) < 2 ^ 32 ->
  exists fs1 d1 bytes,
    Sets order (calls ++ [c]) fs d = Some (fs1, d1)
    /\ fs1 !! name = Some (mkfile bytes bytes)
    /\ bytes = logBytes order (log ++ map recordOf (calls ++ [c])).
Proof.
  intros log fs d Hses Hsize.
  rewrite map_app, logSize_app in Hsize. cbn [map logSize] in Hsize.
  pose proof (logSize_nonneg (map recordOf calls)) as Hnn.
  pose proof (recordSize_min (recordOf c)) as Hmin. unfold headerSize in Hmin.
  destruct (Sets_session order name calls log fs d Hses) as (fs1 & d1 & HSets & Hses1 & _);
    [lia|].
  destruct c as [[now k] v].
  destruct (Set_session order name _ fs1 d1 now k v Hses1)
    as (fs2 & d2 & HSet & Hses2 & _ & fl & Hfl & Hstable).
  { rewrite logSize_app. lia. }
  exists fs2, d2, (f_data fl).
  rewrite (Sets_app order calls _ fs d fs1 d1 HSets). cbn [Sets]. rewrite HSet.
  split; [reflexivity|]. split.
  - rewrite Hfl. destruct fl as [dat st]. cbn [f_data f_stable] in *. rewrite Hstable.
    reflexivity.
  - destruct Hses2 as [Hfile _ _ _ _ _ _ _].
    rewrite (file_bytes_lookup _ _ _ Hfl) in Hfile.
    rewrite Hfile, map_app, app_assoc. reflexivity.
Qed.

(** X12. When the last of a run of [Set] calls on a store opened on an
    empty file has returned, everything in the file has reached stable
    storage: the stable content is the content of the file, the records
    of all the calls in order. *)
Theorem session_is_stable name fs calls :
  empty_file fs name ->
  calls <> [] ->
  logSize (map recordOf calls) < 2 ^ 32 ->
  exists fs0 d0 fs1 d1,
    NewDiskStore order fs name = Some (fs0, Return (Some d0, None))
    /\ Sets order calls fs0 d0 = Some (fs1, d1)
    /\ fs1 !! name
       = Some (mkfile (logBytes order (map recordOf calls))
                 (logBytes order (map recordOf calls))).
Proof.
  intros Hempty Hne Hsize.
  destruct (NewDiskStore_empty order fs name Hempty) as (fs0 & d0 & Hopen & Hses0 & _).
  destruct (exists_last Hne) as (calls' & c & ->).
  destruct (Sets_stable name calls' c [] fs0 d0 Hses0)
    as (fs1 & d1 & bytes & HSets & Hfl & ->).
  { cbn [logSize]. lia. }
  exists fs0, d0, fs1, d1. auto.
Qed.

(** ** Opening leaves the files alone *)


(** X5. [NewDiskStore] comes to an end on every file, whole, truncated or
    arbitrary bytes: every turn of the scan loop that goes on has read at
    least one byte, so the loop stops before the file is used up. *)
Theorem open_always_returns fs name :
  exists fs' r, NewDiskStore order fs name = Some (fs', r).
Proof.
  destruct (NewDiskStore_terminates order fs name) as [[fs' r] H].
  exists fs', r. exact H.
Qed.

(** ** Files that the scan rejects *)

(** The scan of a file that starts with a log of records with non-empty
    payloads: what the loop does behind the log decides. *)
Lemma getKeyDir_after_log fs name fl log rest :
  fs !! name = Some fl -> f_data fl = logBytes order log ++ rest ->
  Forall timestamp_ok log -> Forall payload_nonempty log ->
  logSize log < 2 ^ 32 ->
  getKeyDir order fs name
  = match getKeyDir_loop order (S (length (f_data fl) - length log)) fs
            (Some (mkFile name O_RDONLY (length (logBytes order log)) false))
            (logSize log) (replay 0 ∅ log) None with
    | None => None
    | Some r => Some (fs, r)
    end.
Proof.
  intros Hfl Hdata Hts Hpay Hsize.
  pose proof (logSize_length log) as Hlen.
  pose proof (logBytes_length order log) as Hbytes.
  unfold getKeyDir. rewrite (isFileExists_true fs name fl Hfl).
  unfold os_Open. rewrite Hfl.
  assert (Hfuel : scan_fuel fs name
                  = (length log + S (length (f_data fl) - length log))%nat).
  { unfold scan_fuel. rewrite Hfl. cbn [fmap option_fmap option_map default].
    unfold id. rewrite Hdata, length_app. lia. }
  rewrite Hfuel.
  rewrite (getKeyDir_loop_records order fs name O_RDONLY fl None log Hfl
             ltac:(discriminate) _ [] rest 0 ∅) by (cbn [app]; assumption || lia).
  reflexivity.
Qed.

(** A record with an empty key and an empty value stops the scan: the
    payload read asks for no bytes and gets none, which the loop takes
    for the end of the file. *)
Lemma getKeyDir_loop_empty_record fuel fs name flag fl pre t rest offset kd err :
  fs !! name = Some fl -> flag <> O_APPEND_WRONLY ->
  f_data fl = pre ++ encodeRecord order (t, ""%string, ""%string) ++ rest ->
  0 <= t < 2 ^ 32 ->
  getKeyDir_loop order (S fuel) fs (Some (mkFile name flag (length pre) false))
    offset kd err
  = Some (Return (None, Some (errorString "EOF reading key"))).
Proof.
  intros Hfl Hflag Hdata Ht.
  unfold encodeRecord, encodeKV in Hdata. cbn [snd String.length] in Hdata.
  change (uint32 (Z.of_nat 0)) with 0 in Hdata.
  set (h := encodeHeader order t 0 0) in *.
  assert (Hh : length h = 12%nat) by apply encodeHeader_length.
  assert (Hhd : take 12 (drop (length pre) (f_data fl)) = h).
  { rewrite Hdata, drop_app_length. cbn [list_byte_of_string app].
    rewrite app_nil_r. apply take_app_length'. symmetry. exact Hh. }
  cbn [getKeyDir_loop]. change (Z.to_nat headerSize) with 12%nat.
  rewrite (File_Read_some fs name flag (length pre) 12 fl Hfl Hflag)
    by (rewrite Hhd; intros E; rewrite E in Hh; discriminate Hh).
  rewrite Hhd, Hh, (fill_full 12 h Hh). cbn [is_EOF orb Nat.eqb].
  unfold h at 1. rewrite decodeHeader_encodeHeader by lia.
  reflexivity.
Qed.

(** X6. A file whose last record is cut off inside its header, or right
    behind the header of a record that has a key or a value, cannot be
    opened: [NewDiskStore] returns an error and no store, and leaves the
    file as it is. *)
Theorem open_rejects_cut_header fs name fl log r m :
  fs !! name = Some fl ->
  f_data fl = logBytes order log ++ take m (encodeRecord order r) ->
  (0 < m <= 12)%nat ->
  timestamp_ok r -> payload_nonempty r ->
  Forall timestamp_ok log -> Forall payload_nonempty log ->
  logSize log + recordSize r < 2 ^ 32 ->
  exists e, NewDiskStore order fs name = Some (fs, Return (None, Some e)).
Proof.
  intros Hfl Hdata Hm Htr Hpr Hts Hpay Hsize.
  pose proof (recordSize_min r) as Hmin. unfold headerSize in Hmin.
  pose proof (logSize_nonneg log) as Hnn.
  pose proof (encodeRecord_length order r) as Hlen.
  unfold NewDiskStore.
  rewrite (getKeyDir_after_log fs name fl log _ Hfl Hdata Hts Hpay) by lia.
  destruct (decide (m = 12%nat)) as [->|Hne].
  - destruct r as [[t k] v].
    unfold timestamp_ok, payload_nonempty, recordSize, headerSize in *.
    cbn [fst snd] in *.
    assert (Hhdr : take 12 (encodeRecord order (t, k, v))
                   = encodeHeader order t (Z.of_nat (String.length k))
                       (Z.of_nat (String.length v))).
    { unfold encodeRecord, encodeKV. cbn [snd]. rewrite !uint32_small by lia.
      apply take_app_length'. symmetry. apply encodeHeader_length. }
    rewrite Hhdr in Hdata.
    rewrite (getKeyDir_loop_no_payload order _ fs name O_RDONLY fl _ t _ _ _ _ None
               Hfl ltac:(discriminate) Hdata) by lia.
    eexists. reflexivity.
  - destruct (getKeyDir_loop_short_header order (length (f_data fl) - length log)
                fs name O_RDONLY fl (logBytes order log) _ (logSize log)
                (replay 0 ∅ log) None Hfl ltac:(discriminate) Hdata) as [e He].
    { rewrite length_take. lia. }
    rewrite He. exists e. reflexivity.
Qed.

(** X7. A record with an empty key and an empty value makes the file
    unreadable: wherever it stands behind whole records, and whatever
    follows it, [NewDiskStore] returns the error "EOF reading key" and no
    store. *)
Theorem open_rejects_empty_record fs name fl log t rest :
  fs !! name = Some fl ->
  f_data fl = logBytes order log ++ encodeRecord order (t, ""%string, ""%string) ++ rest ->
  0 <= t < 2 ^ 32 ->
  Forall timestamp_ok log -> Forall payload_nonempty log ->
  logSize log < 2 ^ 32 ->
  NewDiskStore order fs name
  = Some (fs, Return (None, Some (errorString "EOF reading key"))).
Proof.
  intros Hfl Hdata Ht Hts Hpay Hsize.
  unfold NewDiskStore.
  rewrite (getKeyDir_after_log fs name fl log _ Hfl Hdata Hts Hpay Hsize).
  rewrite (getKeyDir_loop_empty_record _ fs name O_RDONLY fl _ t rest _ _ None
             Hfl ltac:(discriminate) Hdata Ht).
  reflexivity.
Qed.

(** ** [Set] and [Get] on open handles, step by step *)

(** [Set] on a store whose write handle is open on an existing file. *)
Lemma Set_open now fsync fs d k v name p fl :
  writeFileHandle d = Some (mkFile name O_APPEND_WRONLY p false) ->
  fs !! name = Some fl ->
  let enc := encodeKV order (uint32 now) k v in
  let data := f_data fl ++ snd enc in
  Set_ order now fsync fs d k v
  = (<[name := mkfile data (match fsync with Some _ => f_stable fl | None => data end)]> fs,
     mkDiskStore
       (<[k := NewKeyEntry (uint32 now) (currentOffset d) (uint32 (fst enc))]> (keyDir d))
       (readFileHandle d)
       (Some (mkFile name O_APPEND_WRONLY (length (f_data fl) + length (snd enc)) false))
       (uint32 (currentOffset d + uint32 (fst enc))),
     match fsync with
     | Some e => Panic ("Failed to sync to disk " +:+ Error e)
     | None => Return tt
     end).
Proof.
  intros Hw Hfl enc data. unfold Set_. subst data enc.
  destruct (encodeKV order (uint32 now) k v) as [totalSize encodedKV].
  rewrite Hw. unfold File_Write. cbn [h_closed h_flag h_name]. rewrite Hfl.
  unfold File_Sync. cbn [h_closed h_name fst snd]. rewrite lookup_insert_eq.
  destruct fsync as [e|]; [reflexivity|].
  rewrite insert_insert_eq. reflexivity.
Qed.

(** [Get] of a key with an entry, through an open read handle: the
    buffer that is decoded holds what the file has at the place of the
    entry and zeros behind it. *)
Lemma Get_open fs d k e name p :
  keyDir d !! k = Some e ->
  readFileHandle d = Some (mkFile name O_RDONLY p false) ->
  snd (Get order fs d k)
  = match decodeKV order
            (fill (Z.to_nat (Size e)) (available fs name (Offset e) (Size e))) with
    | Some (_, _, value) => Return value
    | None => Panic "slice bounds out of range"
    end.
Proof.
  intros He Hr. unfold Get. rewrite He, Hr.
  unfold File_Seek, File_Read, available, file_bytes.
  cbn [h_closed h_flag h_name h_pos].
  destruct (Z.to_nat (Size e)) as [|len] eqn:Hlen.
  - cbn [Nat.eqb take]. destruct (decodeKV order _) as [[[? ?] ?]|]; reflexivity.
  - cbn [Nat.eqb]. destruct (fs !! name) as [fl|]; cbn [fmap option_fmap option_map default].
    + unfold id.
      destruct (take (S len) (drop (Z.to_nat (Offset e)) (f_data fl))) as [|b bs];
        destruct (decodeKV order _) as [[[? ?] ?]|]; reflexivity.
    + rewrite drop_nil, take_nil.
      destruct (decodeKV order _) as [[[? ?] ?]|]; reflexivity.
Qed.

(** ** The counter after a reopen *)

(** X8. After a store is opened on a file that already holds records, a
    key that is set cannot be read back: its entry gets the offset 0, and
    when its record is at least as long as the first record of the file,
    [Get] of the key returns the value of that first record instead of
    the value just set. *)
Theorem Get_after_reopen_and_Set fs name fl r1 log now k v :
  fs !! name = Some fl -> f_data fl = logBytes order (r1 :: log) ->
  Forall timestamp_ok (r1 :: log) -> Forall payload_nonempty (r1 :: log) ->
  logSize (r1 :: log) < 2 ^ 32 ->
  recordSize r1 <= recordSize (recordOf (now, k, v)) < 2 ^ 32 ->
  exists d fs' d',
    NewDiskStore order fs name = Some (fs, Return (Some d, None))
    /\ Set_ order now None fs d k v = (fs', d', Return tt)
    /\ keyDir d' !! k
       = Some (NewKeyEntry (uint32 now) 0 (recordSize (recordOf (now, k, v))))
    /\ file_bytes fs' name
       = logBytes order (r1 :: log) ++ encodeRecord order (recordOf (now, k, v))
    /\ snd (Get order fs' d' k) = Return (snd r1).
Proof.
  intros Hfl Hdata Hts Hpay Hsize Hrec.
  pose proof (NewDiskStore_log order fs name fl _ Hfl Hdata Hts Hpay Hsize) as Hopen.
  pose proof (recordSize_min r1) as Hmin. unfold headerSize in Hmin.
  set (d := mkDiskStore (replay 0 ∅ (r1 :: log)) (Some (mkFile name O_RDONLY 0 false))
              (Some (mkFile name O_APPEND_WRONLY 0 false)) 0) in *.
  pose proof (Set_open now None fs d k v name 0%nat fl eq_refl Hfl) as HSet.
  cbv zeta in HSet. cbn [currentOffset keyDir readFileHandle d] in HSet.
  assert (Hsz : fst (encodeKV order (uint32 now) k v) = recordSize (recordOf (now, k, v)))
    by apply encodeKV_size.
  rewrite Hsz, (uint32_small (recordSize _)) in HSet by lia.
  eexists d, _, _. split; [exact Hopen|]. split; [exact HSet|].
  split; [apply lookup_insert_eq|]. split.
  { unfold file_bytes. rewrite lookup_insert_eq. cbn. rewrite Hdata. reflexivity. }
  erewrite Get_open; [|apply lookup_insert_eq|reflexivity].
  cbn [Offset Size]. unfold available, file_bytes. rewrite lookup_insert_eq.
  cbn [fmap option_fmap option_map default f_data]. unfold id.
  rewrite Hdata. cbn [logBytes]. rewrite drop_0, <- !app_assoc.
  pose proof (encodeRecord_length order r1) as Hl1.
  rewrite take_app, (take_ge (encodeRecord order r1)) by lia.
  unfold fill. rewrite <- app_assoc.
  rewrite decodeKV_app.
  - destruct r1 as [[t1 k1] v1]. reflexivity.
  - inversion Hts; assumption.
  - lia.
Qed.

(** ** Calls on a closed store *)

(** X9. [Set] on a store that has been closed panics, whatever the device
    would answer to a flush, and writes nothing to the file: the write to
    the closed handle fails and is not looked at, the flush fails and is.
    The index has the entry of the key all the same. *)
Theorem Set_after_Close fs d now fsync k v :
  exists d' msg,
    Set_ order now fsync fs (fst (Close d)) k v = (fs, d', Panic msg)
    /\ keyDir d' !! k
       = Some (NewKeyEntry (uint32 now) (currentOffset d)
                 (uint32 (fst (encodeKV order (uint32 now) k v)))).
Proof.
  rewrite Close_store. unfold Set_.
  destruct (encodeKV order (uint32 now) k v) as [totalSize encodedKV].
  cbn [writeFileHandle keyDir currentOffset readFileHandle fst].
  unfold File_Close.
  destruct (writeFileHandle d) as [w|].
  - destruct (h_closed w) eqn:Hc; cbn [fst]; unfold File_Write, File_Sync;
      cbn [h_closed]; rewrite ?Hc;
      eexists _, _; (split; [reflexivity|apply lookup_insert_eq]).
  - cbn [fst]. unfold File_Write, File_Sync.
    eexists _, _. split; [reflexivity|apply lookup_insert_eq].
Qed.

(** X10. [Get] on a store that has been closed does not fail: for a key
    whose entry has at least the size of a header it returns the empty
    string, because the read from the closed handle fails, is not looked
    at, and leaves the buffer full of zeros. *)
Theorem Get_after_Close fs d k e :
  keyDir d !! k = Some e ->
  headerSize <= Size e ->
  Get order fs (fst (Close d)) k = (fst (Close d), Return ""%string).
Proof.
  intros He Hsize. unfold headerSize in Hsize.
  rewrite Close_store. unfold Get. cbn [keyDir readFileHandle writeFileHandle currentOffset].
  rewrite He. unfold File_Close.
  assert (Hz : decodeKV order (fill (Z.to_nat (Size e)) [])
               = Some (0, ""%string, ""%string)).
  { unfold fill. cbn [app length]. rewrite Nat.sub_0_r. apply decodeKV_zeros. lia. }
  destruct (readFileHandle d) as [r|].
  - destruct (h_closed r) eqn:Hc; cbn [fst]; unfold File_Seek, File_Read;
      cbn [h_closed]; rewrite ?Hc; rewrite Hz; reflexivity.
  - cbn [fst]. unfold File_Seek, File_Read. rewrite Hz. reflexivity.
Qed.

(** ** The file is right even when the index is not *)

(** [Set] calls through an open append handle add their records to the
    end of the file, whatever the counter and the index of the store
    are. *)
Lemma Sets_append name calls : forall fs d p fl,
  writeFileHandle d = Some (mkFile name O_APPEND_WRONLY p false) ->
  fs !! name = Some fl ->
  exists fs' d' fl',
    Sets order calls fs d = Some (fs', d')
    /\ fs' !! name = Some fl'
    /\ f_data fl' = f_data fl ++ logBytes order (map recordOf calls).
Proof.
  induction calls as [|[[now k] v] calls IH]; intros fs d p fl Hw Hfl.
  - exists fs, d, fl. cbn [Sets map logBytes]. rewrite app_nil_r. auto.
  - cbn [Sets map logBytes].
    rewrite (Set_open now None fs d k v name p fl Hw Hfl). cbv zeta.
    match goal with
    | |- context [Sets order calls ?fs1 ?d1] =>
        destruct (IH fs1 d1 _ _ eq_refl ltac:(apply lookup_insert_eq))
          as (fs' & d' & fl' & HSets & Hfl' & Hbytes)
    end.
    exists fs', d', fl'. split; [exact HSets|]. split; [exact Hfl'|].
    rewrite Hbytes. cbn [f_data]. rewrite <- app_assoc. reflexivity.
Qed.

(** X11. Records written after a reopen are not lost: the store that
    wrote them cannot find them (its offsets start again at 0), but they
    lie behind the old records in the file, and the next open reads
    everything. When a store is opened on a file that holds a log, [Set]
    calls are made, and a store is opened once more, [Get] on the last
    store returns for every key the value of its last record in the file,
    older or newer. *)
Theorem appends_survive_reopen fs name fl log calls :
  fs !! name = Some fl -> f_data fl = logBytes order log ->
  Forall timestamp_ok log ->
  Forall payload_nonempty (log ++ map recordOf calls) ->
  logSize (log ++ map recordOf calls) < 2 ^ 32 ->
  exists d fs' d' d2,
    NewDiskStore order fs name = Some (fs, Return (Some d, None))
    /\ Sets order calls fs d = Some (fs', d')
    /\ file_bytes fs' name = logBytes order (log ++ map recordOf calls)
    /\ NewDiskStore order fs' name = Some (fs', Return (Some d2, None))
    /\ forall k, exists d3,
        Get order fs' d2 k
        = (d3, Return (default ""%string (values ∅ (log ++ map recordOf calls) !! k))).
Proof.
  intros Hfl Hdata Hts Hpay Hsize.
  pose proof (logSize_nonneg (map recordOf calls)) as Hnn.
  pose proof Hpay as Hpay'. apply Forall_app in Hpay' as [Hpay1 _].
  rewrite logSize_app in Hsize.
  pose proof (NewDiskStore_log order fs name fl log Hfl Hdata Hts Hpay1 ltac:(lia))
    as Hopen.
  set (d := mkDiskStore (replay 0 ∅ log) (Some (mkFile name O_RDONLY 0 false))
              (Some (mkFile name O_APPEND_WRONLY 0 false)) 0) in *.
  destruct (Sets_append name calls fs d 0%nat fl eq_refl Hfl)
    as (fs' & d' & fl' & HSets & Hfl' & Hdata').
  rewrite Hdata, <- logBytes_app in Hdata'.
  assert (Hbytes : file_bytes fs' name = logBytes order (log ++ map recordOf calls)).
  { rewrite (file_bytes_lookup _ _ _ Hfl'). exact Hdata'. }
  assert (Hts' : Forall timestamp_ok (log ++ map recordOf calls)).
  { apply Forall_app. split; [exact Hts|].
    apply Forall_map. apply Forall_forall. intros [[now k] v] _.
    unfold timestamp_ok. cbn [recordOf fst]. apply uint32_range. }
  pose proof (NewDiskStore_log order fs' name fl' _ Hfl' Hdata' Hts' Hpay
                ltac:(rewrite logSize_app; lia)) as Hre.
  set (d2 := mkDiskStore (replay 0 ∅ (log ++ map recordOf calls))
               (Some (mkFile name O_RDONLY 0 false))
               (Some (mkFile name O_APPEND_WRONLY 0 false)) 0) in *.
  exists d, fs', d', d2. split; [exact Hopen|]. split; [exact HSets|].
  split; [exact Hbytes|]. split; [exact Hre|].
  intros k.
  destruct (Get_values name (log ++ map recordOf calls) fs' d2 fl' 0%nat k
              Hfl' Hdata' eq_refl eq_refl ltac:(rewrite logSize_app; lia) Hts')
    as [p' HGet].
  eexists. exact HGet.
Qed.

End StoreRuns.

(** * The further properties on concrete inputs *)

Ltac log_ok :=
  repeat first
    [ apply List.Forall_nil
    | apply List.Forall_cons;
      [first [unfold timestamp_ok; cbn; lia | unfold payload_nonempty; cbn; lia]|] ].

Ltac no_file := unfold empty_file; rewrite lookup_empty; exact I.

(** The calls of the README, with an overwrite. *)
Lemma store_refines_map_witness :
  exists fs0 d0 fs1 d1,
    NewDiskStore LittleEndian ∅ "books.db" = Some (fs0, Return (Some d0, None))
    /\ run LittleEndian
         [OpSet 1 "othello" "shakespeare"; OpSet 2 "hamlet" "shakespeare";
          OpGet "othello"; OpGet "missing"; OpSet 3 "othello" "verdi";
          OpGet "othello"; OpGet "hamlet"] fs0 d0
       = Some (fs1, d1, ["shakespeare"; ""; "verdi"; "shakespeare"]%string).
Proof.
  destruct (store_refines_map LittleEndian "books.db" ∅
              [OpSet 1 "othello" "shakespeare"; OpSet 2 "hamlet" "shakespeare";
               OpGet "othello"; OpGet "missing"; OpSet 3 "othello" "verdi";
               OpGet "othello"; OpGet "hamlet"])
    as (fs0 & d0 & fs1 & d1 & Hopen & Hrun & _).
  - no_file.
  - vm_compute. reflexivity.
  - exists fs0, d0, fs1, d1. split; [exact Hopen|exact Hrun].
Defined.

(** Two keys are set, the store is closed and opened again, and "hamlet"
    is still there. *)
Lemma reopen_preserves_map_witness :
  exists fs0 d0 fs1 d1 out d3 d4,
    NewDiskStore BigEndian ∅ "books.db" = Some (fs0, Return (Some d0, None))
    /\ run BigEndian
         [OpSet 1 "othello" "shakespeare"; OpSet 2 "hamlet" "shakespeare"] fs0 d0
       = Some (fs1, d1, out)
    /\ NewDiskStore BigEndian fs1 "books.db" = Some (fs1, Return (Some d3, None))
    /\ Get BigEndian fs1 d3 "hamlet" = (d4, Return "shakespeare"%string).
Proof.
  destruct (reopen_preserves_map BigEndian "books.db" ∅
              [OpSet 1 "othello" "shakespeare"; OpSet 2 "hamlet" "shakespeare"])
    as (fs0 & d0 & fs1 & d1 & out & d3 & Hopen & Hrun & Hre & _ & HGet).
  - no_file.
  - vm_compute. reflexivity.
  - cbn [opRecords]. log_ok.
  - destruct (HGet "hamlet"%string) as [d4 H4].
    exists fs0, d0, fs1, d1, out, d3, d4.
    split; [exact Hopen|]. split; [exact Hrun|]. split; [exact Hre|exact H4].
Defined.

(** After two calls for "k" the entry of "k" lies inside the file. *)
Lemma entries_lie_in_file_witness :
  exists fs0 d0 fs1 d1 out,
    NewDiskStore LittleEndian ∅ "db" = Some (fs0, Return (Some d0, None))
    /\ run LittleEndian [OpSet 1 "k" "v"; OpSet 2 "k" "ww"] fs0 d0 = Some (fs1, d1, out)
    /\ forall e, keyDir d1 !! "k"%string = Some e ->
         Offset e + Size e <= Z.of_nat (length (file_bytes fs1 "db")).
Proof.
  destruct (entries_lie_in_file LittleEndian "db" ∅ [OpSet 1 "k" "v"; OpSet 2 "k" "ww"])
    as (fs0 & d0 & fs1 & d1 & out & Hopen & Hrun & _ & Hin).
  - no_file.
  - vm_compute. reflexivity.
  - exists fs0, d0, fs1, d1, out. split; [exact Hopen|]. split; [exact Hrun|].
    intros e He. destruct (Hin "k"%string e He) as (_ & _ & Hle & _). exact Hle.
Defined.

(** Three calls, and the file is on stable storage. *)
Lemma session_is_stable_witness :
  exists fs0 d0 fs1 d1 bytes,
    NewDiskStore LittleEndian ∅ "db" = Some (fs0, Return (Some d0, None))
    /\ Sets LittleEndian [(1, "a", "x"); (2, "b", "y"); (3, "a", "z")]%string fs0 d0
       = Some (fs1, d1)
    /\ fs1 !! "db"%string = Some (mkfile bytes bytes)
    /\ length bytes = 42%nat.
Proof.
  destruct (session_is_stable LittleEndian "db" ∅
              [(1, "a", "x"); (2, "b", "y"); (3, "a", "z")]%string)
    as (fs0 & d0 & fs1 & d1 & Hopen & HSets & Hfl).
  - no_file.
  - discriminate.
  - vm_compute. reflexivity.
  - exists fs0, d0, fs1, d1,
      (logBytes LittleEndian
         (map recordOf [(1, "a", "x"); (2, "b", "y"); (3, "a", "z")]%string)).
    split; [exact Hopen|]. split; [exact HSets|]. split; [exact Hfl|reflexivity].
Defined.


(** A whole record and five bytes of the next one. *)
Lemma open_rejects_cut_header_witness :
  let log : list record := [(1, "a", "x")]%string in
  let bytes := logBytes LittleEndian log
               ++ take 5 (encodeRecord LittleEndian (7, "k", "vv")%string) in
  let fs : gmap string file := {[ "db"%string := mkfile bytes bytes ]} in
  length bytes = 19%nat
  /\ exists e, NewDiskStore LittleEndian fs "db" = Some (fs, Return (None, Some e)).
Proof.
  intros log bytes fs. split; [reflexivity|].
  apply (open_rejects_cut_header LittleEndian fs "db" (mkfile bytes bytes) log
           (7, "k", "vv")%string 5%nat).
  - vm_compute. reflexivity.
  - reflexivity.
  - lia.
  - unfold timestamp_ok. cbn. lia.
  - unfold payload_nonempty. cbn. lia.
  - log_ok.
  - log_ok.
  - vm_compute. reflexivity.
Defined.

(** A record without key and value between two records with both. *)
Lemma open_rejects_empty_record_witness :
  let log : list record := [(1, "a", "x")]%string in
  let bytes := logBytes BigEndian log
               ++ encodeRecord BigEndian (2, "", "")%string
               ++ encodeRecord BigEndian (3, "b", "y")%string in
  let fs : gmap string file := {[ "db"%string := mkfile bytes bytes ]} in
  NewDiskStore BigEndian fs "db"
  = Some (fs, Return (None, Some (errorString "EOF reading key"))).
Proof.
  intros log bytes fs.
  apply (open_rejects_empty_record BigEndian fs "db" (mkfile bytes bytes) log 2
           (encodeRecord BigEndian (3, "b", "y")%string)).
  - vm_compute. reflexivity.
  - reflexivity.
  - lia.
  - log_ok.
  - log_ok.
  - vm_compute. reflexivity.
Defined.

(** The file holds ("k", "vv"); after the reopen "j" is set to "www" and
    reads as "vv". *)
Lemma Get_after_reopen_and_Set_witness :
  let bytes := logBytes LittleEndian [(7, "k", "vv")]%string in
  let fs : gmap string file := {[ "db"%string := mkfile bytes bytes ]} in
  exists d fs' d',
    NewDiskStore LittleEndian fs "db" = Some (fs, Return (Some d, None))
    /\ Set_ LittleEndian 8 None fs d "j" "www" = (fs', d', Return tt)
    /\ snd (Get LittleEndian fs' d' "j") = Return "vv"%string.
Proof.
  intros bytes fs.
  destruct (Get_after_reopen_and_Set LittleEndian fs "db" (mkfile bytes bytes)
              (7, "k", "vv")%string [] 8 "j" "www")
    as (d & fs' & d' & Hopen & HSet & _ & _ & HGet).
  - vm_compute. reflexivity.
  - reflexivity.
  - log_ok.
  - log_ok.
  - vm_compute. reflexivity.
  - vm_compute. split; [discriminate|reflexivity].
  - exists d, fs', d'. split; [exact Hopen|]. split; [exact HSet|exact HGet].
Defined.

(** A closed store with an entry for "k". *)
Lemma Get_after_Close_witness :
  let d := mkDiskStore {[ "k"%string := NewKeyEntry 7 0 15 ]}
             (Some (mkFile "db" O_RDONLY 0 false))
             (Some (mkFile "db" O_APPEND_WRONLY 15 false)) 15 in
  let fs := {[ "db"%string := mkfile (snd (encodeKV LittleEndian 7 "k" "vv")) [] ]} in
  snd (Get LittleEndian fs d "k") = Return "vv"%string
  /\ Get LittleEndian fs (fst (Close d)) "k" = (fst (Close d), Return ""%string).
Proof.
  intros d fs. split; [vm_compute; reflexivity|].
  apply (Get_after_Close LittleEndian fs d "k" (NewKeyEntry 7 0 15)).
  - vm_compute. reflexivity.
  - vm_compute. discriminate.
Defined.

(** "k" is written before the reopen and "j" after it; a third store
    reads both. *)
Lemma appends_survive_reopen_witness :
  let bytes := logBytes LittleEndian [(7, "k", "vv")]%string in
  let fs : gmap string file := {[ "db"%string := mkfile bytes bytes ]} in
  exists d fs' d' d2 d3 d4,
    NewDiskStore LittleEndian fs "db" = Some (fs, Return (Some d, None))
    /\ Sets LittleEndian [(8, "j", "www")]%string fs d = Some (fs', d')
    /\ NewDiskStore LittleEndian fs' "db" = Some (fs', Return (Some d2, None))
    /\ Get LittleEndian fs' d2 "j" = (d3, Return "www"%string)
    /\ Get LittleEndian fs' d2 "k" = (d4, Return "vv"%string).
Proof.
  intros bytes fs.
  destruct (appends_survive_reopen LittleEndian fs "db" (mkfile bytes bytes)
              [(7, "k", "vv")]%string [(8, "j", "www")]%string)
    as (d & fs' & d' & d2 & Hopen & HSets & _ & Hre & HGet).
  - vm_compute. reflexivity.
  - reflexivity.
  - log_ok.
  - cbn [map app recordOf]. log_ok.
  - vm_compute. reflexivity.
  - destruct (HGet "j"%string) as [d3 H3]. destruct (HGet "k"%string) as [d4 H4].
    exists d, fs', d', d2, d3, d4.
    split; [exact Hopen|]. split; [exact HSets|]. split; [exact Hre|].
    split; [exact H3|exact H4].
Defined.
